(** * Version manager of gemini-commit-wizard: a shallow embedding

    The development follows [version-manager.ts] ([src/unnamed/part_001]):
    the class [VersionManager] and the script entry point; line numbers
    are those of that file.  Strings are byte strings holding the UTF-8
    encoding of the JavaScript string; numbers are the naturals a double
    represents exactly; the persisted [changelog.json] is an explicit
    store threaded through [analyzeAndVersion]. *)

From Stdlib Require Import Strings.String Strings.Ascii Lists.List.
From Stdlib Require Import ZArith NArith Bool Lia.
From Stdlib Require Import Numbers.DecimalString Numbers.DecimalN.
Import ListNotations.
Local Open Scope string_scope.

(** ** The JavaScript string operations the code uses *)

Module JS.

(** [s.startsWith(p)] *)
Definition startsWith (s p : string) : bool := String.prefix p s.

(** [s.includes(p)] *)
Fixpoint includes (s p : string) : bool :=
  String.prefix p s ||
  match s with
  | EmptyString => false
  | String _ s' => includes s' p
  end.

(** [s.split(sep)] for a one-character separator: never the empty list. *)
Fixpoint split (sep : ascii) (s : string) : list string :=
  match s with
  | EmptyString => [EmptyString]
  | String c s' =>
      if Ascii.eqb c sep then EmptyString :: split sep s'
      else match split sep s' with
           | [] => [String c EmptyString]
           | w :: ws => String c w :: ws
           end
  end.

(** Case mapping of the ASCII letters; other bytes are kept.  The code
    looks for ASCII words and for emoji, which this mapping decides as
    the full one does, but for U+212A and U+0130, whose lower case has an
    ASCII letter and which are left as they are here. *)
Definition lowerChar (c : ascii) : ascii :=
  let n := nat_of_ascii c in
  if (65 <=? n)%nat && (n <=? 90)%nat then ascii_of_nat (n + 32) else c.

Definition upperChar (c : ascii) : ascii :=
  let n := nat_of_ascii c in
  if (97 <=? n)%nat && (n <=? 122)%nat then ascii_of_nat (n - 32) else c.

(** [s.toLowerCase()] *)
Fixpoint toLowerCase (s : string) : string :=
  match s with
  | EmptyString => EmptyString
  | String c s' => String (lowerChar c) (toLowerCase s')
  end.

(** White space of [trim] and of the regular expression class [\s],
    restricted to the ASCII range: TAB, LF, VT, FF, CR and SPACE. *)
Definition isSpace (c : ascii) : bool :=
  let n := nat_of_ascii c in
  ((9 <=? n)%nat && (n <=? 13)%nat) || (n =? 32)%nat.

Fixpoint trimStart (s : string) : string :=
  match s with
  | EmptyString => EmptyString
  | String c s' => if isSpace c then trimStart s' else s
  end.

(** Drops trailing white space; the recursion keeps a character when
    something other than white space follows it. *)
Fixpoint trimEnd (s : string) : string :=
  match s with
  | EmptyString => EmptyString
  | String c s' =>
      match trimEnd s' with
      | EmptyString => if isSpace c then EmptyString else String c EmptyString
      | t => String c t
      end
  end.

(** [s.trim()] *)
Definition trim (s : string) : string := trimEnd (trimStart s).

(** Truthiness of a string: the empty string is falsy. *)
Definition truthy (s : string) : bool := negb (s =? "").

Definition isDigit (c : ascii) : bool :=
  let n := nat_of_ascii c in (48 <=? n)%nat && (n <=? 57)%nat.

Definition isLetter (c : ascii) : bool :=
  let n := nat_of_ascii c in
  ((65 <=? n)%nat && (n <=? 90)%nat) || ((97 <=? n)%nat && (n <=? 122)%nat).

Fixpoint allDigits (s : string) : bool :=
  match s with
  | EmptyString => true
  | String c s' => isDigit c && allDigits s'
  end.

(** Line terminators, which [.] of a regular expression does not match:
    LF, CR, U+2028 and U+2029 (the last two in UTF-8). *)
Definition LF : string := String "010" EmptyString.
Definition CR : string := String "013" EmptyString.
Definition LS : string := String "226" (String "128" (String "168" EmptyString)).
Definition PS : string := String "226" (String "128" (String "169" EmptyString)).

Definition hasLineTerminator (s : string) : bool :=
  includes s LF || includes s CR || includes s LS || includes s PS.

(** The numbers of the model: a natural up to 2^53, which a double holds
    exactly, or NaN. *)
Inductive number : Type :=
  | Num (n : N)
  | NaN.

(** A value read out of an array of numbers by destructuring: a missing
    position is [undefined]. *)
Inductive value : Type :=
  | Undefined
  | Number_ (x : number).

Definition MAX_SAFE_INTEGER : N := 9007199254740991.

Definition decimal (n : N) : string := NilEmpty.string_of_uint (N.to_uint n).

Definition digitsValue (s : string) : N :=
  match NilEmpty.uint_of_string s with
  | Some d => N.of_uint d
  | None => 0
  end.

(** [Number(s)] on the part of its domain that is represented: the empty
    string is 0, a string of decimal digits is its value when that is a
    safe integer, a string that starts with a letter other than [I] (so
    not [Infinity]) is NaN.  [None]: the double is outside the model
    (signs, exponents, radix prefixes, padding, unsafe magnitudes);
    [Number] itself never throws. *)
Definition Number (s : string) : option number :=
  match s with
  | EmptyString => Some (Num 0)
  | String c _ =>
      if allDigits s then
        (if (digitsValue s <=? MAX_SAFE_INTEGER)%N
         then Some (Num (digitsValue s)) else None)
      else if isLetter c && negb (Ascii.eqb c "I") then Some NaN
      else None
  end.

(** [x + 1] *)
Definition plus1 (v : value) : value :=
  match v with
  | Number_ (Num n) => Number_ (Num (n + 1))
  | Number_ NaN => Number_ NaN
  | Undefined => Number_ NaN
  end.

(** The text a template literal interpolates for a value. *)
Definition toString (v : value) : string :=
  match v with
  | Number_ (Num n) => decimal n
  | Number_ NaN => "NaN"
  | Undefined => "undefined"
  end.

End JS.

(** ** Data model *)

(** [ChangelogEntry['type']]; [fix] is a keyword here, hence [fix_]. *)
Inductive EntryType : Type := feature | fix_ | improvement | breaking.

Inductive VersionType : Type := initial | major | minor | patch.

(** ** Version identifiers *)

(** The alternation [(pre-alpha-|alpha-|beta-|rc-)], in the order the
    regular expression tries it. *)
Definition prefixTokens : list string :=
  ["pre-alpha-"; "alpha-"; "beta-"; "rc-"].

(** [s.replace(/-$/, '')] *)
Fixpoint removeFinalHyphen (s : string) : string :=
  match s with
  | EmptyString => EmptyString
  | String c EmptyString => if Ascii.eqb c "-" then EmptyString else s
  | String c s' => String c (removeFinalHyphen s')
  end.

(** The text left after a leading [p], when [s] starts with [p]. *)
Fixpoint dropPrefix (p s : string) : option string :=
  match p, s with
  | EmptyString, _ => Some s
  | String a p', String b s' =>
      if Ascii.eqb a b then dropPrefix p' s' else None
  | String _ _, EmptyString => None
  end.

(** The first token that leaves a non-empty rest for [(.+)]; with none,
    the optional group is skipped and [(.+)] takes the whole string. *)
Fixpoint matchTokens (tokens : list string) (s : string)
  : option string * string :=
  match tokens with
  | [] => (None, s)
  | t :: ts =>
      match dropPrefix t s with
      | Some (String c r) => (Some t, String c r)
      | _ => matchTokens ts s
      end
  end.

(** [version.match(/^(pre-alpha-|alpha-|beta-|rc-)?(.+)$/)]: groups 1 and
    2, or [None] for [null].  [(.+)$] needs at least one character and no
    line terminator up to the end of the input. *)
Definition versionMatch (version : string)
  : option (option string * string) :=
  if JS.hasLineTerminator version then None
  else match version with
       | EmptyString => None
       | _ => Some (matchTokens prefixTokens version)
       end.

(** [parseVersionString] (lines 252-261): the record
    [{ prefix?, baseVersion }] as a pair. *)
Definition parseVersionString (version : string) : option string * string :=
  match versionMatch version with
  | Some (g1, g2) => (option_map removeFinalHyphen g1, g2)
  | None => (None, version)
  end.

(** [buildVersionString(prefix?, baseVersion?)] (lines 266-270) *)
Definition buildVersionString (prefix baseVersion : option string) : string :=
  match baseVersion with
  | Some b =>
      if negb (JS.truthy b) then "1.0.0"
      else match prefix with
           | Some p => if negb (JS.truthy p) then b else p ++ "-" ++ b
           | None => b
           end
  | None => "1.0.0"
  end.

(** Position [i] of [baseVersion.split('.').map(Number)] as destructured
    by [[major, minor, patch]]; [None] when that number is outside the
    model. *)
Definition component (parts : list string) (i : nat) : option JS.value :=
  match nth_error parts i with
  | None => Some JS.Undefined
  | Some s => option_map JS.Number_ (JS.Number s)
  end.

(** [incrementVersion(currentVersion, type, targetPrefix?, overrideType?)]
    (lines 215-247).  [None] only when a number that the result prints is outside the
    model. *)
Definition incrementVersion (currentVersion : string) (type : VersionType)
    (targetPrefix : option string) (overrideType : option VersionType)
  : option string :=
  let '(prefix, baseVersion) := parseVersionString currentVersion in
  let parts := JS.split "." baseVersion in
  let major_ := component parts 0 in
  let minor_ := component parts 1 in
  let patch_ := component parts 2 in
  let newPrefix :=
    match targetPrefix with
    | Some t => Some t
    | None => prefix
    end in
  let actualType :=
    match overrideType with
    | Some t => t
    | None => type
    end in
  let newBaseVersion :=
    match actualType with
    | major =>
        match major_ with
        | Some a => Some (JS.toString (JS.plus1 a) ++ ".0.0")
        | None => None
        end
    | minor =>
        match major_, minor_ with
        | Some a, Some b =>
            Some (JS.toString a ++ "." ++ JS.toString (JS.plus1 b) ++ ".0")
        | _, _ => None
        end
    | patch =>
        match major_, minor_, patch_ with
        | Some a, Some b, Some c =>
            Some (JS.toString a ++ "." ++ JS.toString b ++ "."
                    ++ JS.toString (JS.plus1 c))
        | _, _, _ => None
        end
    | initial => Some baseVersion
    end in
  option_map (fun b => buildVersionString newPrefix (Some b)) newBaseVersion.

(** ** Commits, changelog entries and the persisted history *)

(** A [date] field holds either the empty string or a day [YYYY-MM-DD],
    which [new Date(...).toISOString().split('T')[0]] produces; the day is
    kept as its number of days since 1970-01-01. *)
Inductive DateString : Type :=
  | NoDate
  | Day (d : Z).

Module ChangelogEntry.
Record t : Type := make {
  type : EntryType;
  title : string;
  description : string
}.
End ChangelogEntry.

Module CommitInfo.
Record t : Type := make {
  hash : string;
  date : DateString;
  title : string;
  description : string;
  technical_section : option string;
  changelog_section : option string
}.
End CommitInfo.

Module Version.
Record t : Type := make {
  version : string;
  date : DateString;
  type : VersionType;
  title : string;
  changes : list ChangelogEntry.t;
  technical_notes : string;
  breaking_changes : list string;
  commit_hash : string;
  prefix : option string
}.
End Version.

Module ChangelogData.
Record t : Type := make {
  current_version : string;
  versions : list Version.t
}.
End ChangelogData.

(** ** Changelog sections *)

Definition bugEmoji : string := "🐛".
Definition sparklesEmoji : string := "✨".

(** [entry.split('.')[0] || entry] *)
Definition entryTitle (entry : string) : string :=
  match JS.split "." entry with
  | first :: _ => if JS.truthy first then first else entry
  | [] => entry
  end.

(** The [type] that [processSectionEntries] gives to a section. *)
Definition sectionType (section : string) : EntryType :=
  if JS.includes section "fix" || JS.includes section bugEmoji then fix_
  else if JS.includes section "feature" || JS.includes section sparklesEmoji
       then feature
  else if JS.includes section "breaking" then breaking
  else improvement.

(** [processSectionEntries(section, entries)] (lines 172-188) *)
Definition processSectionEntries (section : string) (entries : list string)
  : list ChangelogEntry.t :=
  let type := sectionType section in
  map (fun entry => ChangelogEntry.make type (entryTitle entry) entry) entries.

(** [line.replace(/^##\s*/, '')] and [line.replace(/^-\s*/, '')]: the
    marker and the white space after it go, when the line starts with
    the marker. *)
Definition stripMarker (marker line : string) : string :=
  match dropPrefix marker line with
  | Some rest => JS.trimStart rest
  | None => line
  end.

(** The loop variables of [parseChangelogSection]. *)
Record SectionState : Type := mkSectionState {
  entries : list ChangelogEntry.t;
  currentSection : string;
  currentEntries : list string
}.

(** The guarded [entries.push(...this.processSectionEntries(...))]. *)
Definition flushSection (st : SectionState) : list ChangelogEntry.t :=
  if JS.truthy (currentSection st)
     && (0 <? List.length (currentEntries st))%nat
  then entries st ++ processSectionEntries (currentSection st) (currentEntries st)
  else entries st.

(** One turn of the loop over the lines. *)
Definition sectionStep (st : SectionState) (line : string) : SectionState :=
  if JS.startsWith line "##" then
    mkSectionState (flushSection st)
                   (JS.toLowerCase (stripMarker "##" line)) []
  else if JS.startsWith line "-" then
    mkSectionState (entries st) (currentSection st)
                   (currentEntries st ++ [stripMarker "-" line])
  else st.

(** [changelog.split('\n').map(line => line.trim()).filter(line => line)] *)
Definition changelogLines (changelog : string) : list string :=
  filter JS.truthy (map JS.trim (JS.split "010" changelog)).

(** [parseChangelogSection(changelog)] (lines 137-167) *)
Definition parseChangelogSection (changelog : string)
  : list ChangelogEntry.t :=
  if negb (JS.truthy changelog) then []
  else flushSection
         (fold_left sectionStep (changelogLines changelog)
                    (mkSectionState [] "" [])).

(** ** Bump type detection *)

(** [c.changelog_section?.includes(w)], [undefined] counting as false. *)
Definition sectionIncludes (c : CommitInfo.t) (w : string) : bool :=
  match CommitInfo.changelog_section c with
  | Some s => JS.includes s w
  | None => false
  end.

(** [c.changelog_section?.toLowerCase().includes(w)] *)
Definition sectionLowerIncludes (c : CommitInfo.t) (w : string) : bool :=
  match CommitInfo.changelog_section c with
  | Some s => JS.includes (JS.toLowerCase s) w
  | None => false
  end.

Definition hasBreaking (commits : list CommitInfo.t) : bool :=
  existsb (fun c =>
    sectionIncludes c "breaking"
    || JS.includes (JS.toLowerCase (CommitInfo.title c)) "breaking") commits.

Definition hasFeature (commits : list CommitInfo.t) : bool :=
  existsb (fun c =>
    JS.startsWith (CommitInfo.title c) "feat("
    || sectionIncludes c sparklesEmoji
    || sectionLowerIncludes c "feature") commits.

(** [determineVersionType(commits)] (lines 193-210) *)
Definition determineVersionType (commits : list CommitInfo.t) : VersionType :=
  if hasBreaking commits then major
  else if hasFeature commits then minor
  else patch.

(** ** Entries and notes collected from a batch of commits *)

(** Length of the longest prefix of [s] without a closing parenthesis,
    with the rest of [s]: what [[^)]+] consumes. *)
Fixpoint untilParen (s : string) : nat * string :=
  match s with
  | EmptyString => (O, EmptyString)
  | String c s' =>
      if Ascii.eqb c ")" then (O, s)
      else let '(n, r) := untilParen s' in (S n, r)
  end.

(** The text after a match of [\([^)]+\)\s*-\s*] at the start of [s]. *)
Definition afterScope (s : string) : option string :=
  match dropPrefix "(" s with
  | Some inner =>
      match untilParen inner with
      | (S _, String _ r) => option_map JS.trimStart
                               (dropPrefix "-" (JS.trimStart r))
      | _ => None
      end
  | None => None
  end.

Fixpoint firstSome {A : Type} (l : list (option A)) : option A :=
  match l with
  | [] => None
  | Some a :: _ => Some a
  | None :: r => firstSome r
  end.

(** [title.replace(/^(feat|fix|refactor)\([^)]+\)\s*-\s*/, '')] *)
Definition stripConventionalPrefix (title : string) : string :=
  match firstSome
          (map (fun kw => match dropPrefix kw title with
                          | Some r => afterScope r
                          | None => None
                          end) ["feat"; "fix"; "refactor"]) with
  | Some rest => rest
  | None => title
  end.

(** The entry made from the title of a commit without changelog section. *)
Definition titleEntry (commit : CommitInfo.t) : ChangelogEntry.t :=
  let title := CommitInfo.title commit in
  let type :=
    if JS.startsWith title "feat(" then feature
    else if JS.startsWith title "fix(" then fix_
    else improvement in
  ChangelogEntry.make type (stripConventionalPrefix title) title.

(** The entries one commit contributes to [allChanges] (lines 386-401,
    and again 740-754). *)
Definition commitChanges (commit : CommitInfo.t) : list ChangelogEntry.t :=
  match CommitInfo.changelog_section commit with
  | Some section =>
      if JS.truthy section then parseChangelogSection section
      else [titleEntry commit]
  | None => [titleEntry commit]
  end.

(** [allChanges] after the loop over the commits. *)
Definition collectChanges (commits : list CommitInfo.t)
  : list ChangelogEntry.t :=
  flat_map commitChanges commits.

(** [technicalNotes] after the loop over the commits. *)
Definition collectTechnicalNotes (commits : list CommitInfo.t) : string :=
  fold_left
    (fun technicalNotes commit =>
       match CommitInfo.technical_section commit with
       | Some t => if JS.truthy t then technicalNotes ++ JS.LF ++ t
                   else technicalNotes
       | None => technicalNotes
       end) commits "".

Definition isType (k : EntryType) (c : ChangelogEntry.t) : bool :=
  match k, ChangelogEntry.type c with
  | feature, feature | fix_, fix_
  | improvement, improvement | breaking, breaking => true
  | _, _ => false
  end.

(** [prefix.charAt(0).toUpperCase() + prefix.slice(1)] *)
Definition capitalize (s : string) : string :=
  match s with
  | EmptyString => EmptyString
  | String c r => String (JS.upperChar c) r
  end.

(** [generateVersionTitle(changes, type, prefix?)] (lines 458-487) *)
Definition generateVersionTitle (changes : list ChangelogEntry.t)
    (type : VersionType) (prefix : option string) : string :=
  let features := filter (isType feature) changes in
  let fixes := filter (isType fix_) changes in
  let improvements := filter (isType improvement) changes in
  let prefixLabel :=
    match prefix with
    | Some p => if JS.truthy p then "Versión " ++ capitalize p ++ " - " else ""
    | None => ""
    end in
  match type with
  | major => prefixLabel ++ "Actualización mayor con cambios significativos"
  | _ =>
      match features, fixes with
      | f :: nil, _ =>
          prefixLabel ++ "Nueva funcionalidad: " ++ ChangelogEntry.title f
      | f :: fs, _ =>
          prefixLabel ++ "Nuevas funcionalidades incluyendo "
            ++ ChangelogEntry.title f ++ " y "
            ++ JS.decimal (N.of_nat (List.length fs)) ++ " más"
      | nil, x :: nil =>
          prefixLabel ++ "Corrección: " ++ ChangelogEntry.title x
      | nil, _ :: _ =>
          prefixLabel ++ "Correcciones y mejoras ("
            ++ JS.decimal (N.of_nat (List.length fixes)) ++ " fixes, "
            ++ JS.decimal (N.of_nat (List.length improvements)) ++ " mejoras)"
      | nil, nil => prefixLabel ++ "Mejoras y optimizaciones"
      end
  end.

(** ** Prefix transitions *)

(** [['pre-alpha', 'alpha', 'beta', 'rc', undefined]] *)
Definition prefixOrder : list (option string) :=
  [Some "pre-alpha"; Some "alpha"; Some "beta"; Some "rc"; None].

Definition validPrefixes : list string := ["pre-alpha"; "alpha"; "beta"; "rc"].

Definition sameOption (a b : option string) : bool :=
  match a, b with
  | Some x, Some y => x =? y
  | None, None => true
  | _, _ => false
  end.

(** [l.indexOf(x)], [None] standing for -1. *)
Fixpoint indexOf {A : Type} (same : A -> A -> bool) (l : list A) (x : A)
  : option nat :=
  match l with
  | [] => None
  | y :: r => if same y x then Some O else option_map S (indexOf same r x)
  end.

(** [p || 'stable'] *)
Definition orStable (p : option string) : string :=
  match p with
  | Some s => if JS.truthy s then s else "stable"
  | None => "stable"
  end.

(** ** Effects: the persisted changelog, warnings and exceptions *)

Inductive exn : Type :=
  | Error (message : string)
  | TypeError.

(** How a run ends: with a value, with a thrown exception, or at a
    number the model does not represent (see [JS.Number]), where the code
    itself goes on. *)
Inductive result (A : Type) : Type :=
  | Ok (a : A)
  | Throw (e : exn)
  | Unrepresented.
Arguments Ok {A} a.
Arguments Throw {A} e.
Arguments Unrepresented {A}.

(** [changelog.json] ([None]: no file, or one that does not parse) and
    the lines given to [console.warn]. *)
Record World : Type := mkWorld {
  changelog_json : option ChangelogData.t;
  warnings : list string
}.

Definition M (A : Type) : Type := World -> result A * World.

Definition ret {A : Type} (a : A) : M A := fun w => (Ok a, w).

Definition bind {A B : Type} (m : M A) (k : A -> M B) : M B :=
  fun w =>
    match m w with
    | (Ok a, w') => k a w'
    | (Throw e, w') => (Throw e, w')
    | (Unrepresented, w') => (Unrepresented, w')
    end.

Notation "x <- m ;; k" := (bind m (fun x => k))
  (at level 61, m at next level, right associativity).
Notation "m ;;; k" := (bind m (fun _ => k))
  (at level 61, right associativity).

Definition throw {A : Type} (e : exn) : M A := fun w => (Throw e, w).

Definition console_warn (line : string) : M unit :=
  fun w => (Ok tt, mkWorld (changelog_json w) (warnings w ++ [line])).

Definition writeChangelog (data : ChangelogData.t) : M unit :=
  fun w => (Ok tt, mkWorld (Some data) (warnings w)).

Definition represented {A : Type} (o : option A) : M A :=
  fun w =>
    match o with
    | Some a => (Ok a, w)
    | None => (Unrepresented, w)
    end.

(** [loadChangelogData()] (lines 299-313) *)
Definition loadChangelogData : M ChangelogData.t :=
  fun w =>
    match changelog_json w with
    | Some data => (Ok data, w)
    | None => (Ok (ChangelogData.make "0.1.0" []), w)
    end.

(** [validatePrefixTransition(currentVersion, targetPrefix?)]
    (lines 275-294) *)
Definition validatePrefixTransition (currentVersion : string)
    (targetPrefix : option string) : M unit :=
  let currentPrefix := fst (parseVersionString currentVersion) in
  let currentIndex := indexOf sameOption prefixOrder currentPrefix in
  let targetIndex := indexOf sameOption prefixOrder targetPrefix in
  (match currentIndex, targetIndex with
   | Some ci, Some ti =>
       if (ti <? ci)%nat then
         console_warn ("⚠️ Advertencia: Transición de prefijo regresiva "
                         ++ orStable currentPrefix ++ " → "
                         ++ orStable targetPrefix) ;;;
         console_warn
           "   Esto podría confundir a los usuarios sobre el estado de estabilidad."
       else ret tt
   | _, _ => ret tt
   end) ;;;
  match targetPrefix with
  | Some t =>
      if JS.truthy t && negb (existsb (String.eqb t) validPrefixes) then
        throw (Error ("❌ Prefijo inválido: " ++ t ++ ". Válidos: "
                        ++ String.concat ", " validPrefixes
                        ++ ", o sin prefijo para stable"))
      else ret tt
  | None => ret tt
  end.

(** The [options] of [analyzeAndVersion]. *)
Record Options : Type := mkOptions {
  type : option VersionType;
  prefix : option string
}.

(** What [analyzeAndVersion] did when it returns. *)
Inductive Outcome : Type :=
  | NoNewCommits
  | Versioned (newVersionEntry : Version.t).

(** [commits[commits.length - 1]]; reading a field of the [undefined]
    that an empty array gives is a [TypeError]. *)
Definition lastCommit (commits : list CommitInfo.t) : M CommitInfo.t :=
  match nth_error commits (List.length commits - 1) with
  | Some c => ret c
  | None => throw TypeError
  end.

(** [analyzeAndVersion(options)] (lines 329-453) up to and including the
    write of [changelog.json]; the synchronisation of the other version files that
    follows, and the progress lines on the console, are left out.
    [newCommits] is what [getCommitsSince] returns for the last versioned
    commit, oldest first, and [today] the current day. *)
Definition analyzeAndVersion (newCommits : list CommitInfo.t)
    (today : DateString) (options : Options) : M Outcome :=
  changelogData <- loadChangelogData ;;
  if (List.length newCommits =? 0)%nat then ret NoNewCommits
  else
    let detectedVersionType := determineVersionType newCommits in
    let finalVersionType :=
      match type options with
      | Some t => t
      | None => detectedVersionType
      end in
    (match prefix options with
     | Some p =>
         validatePrefixTransition
           (ChangelogData.current_version changelogData) (Some p)
     | None => ret tt
     end) ;;;
    newVersion <- represented
      (incrementVersion (ChangelogData.current_version changelogData)
         detectedVersionType (prefix options) (Some finalVersionType)) ;;
    let allChanges := collectChanges newCommits in
    let technicalNotes := collectTechnicalNotes newCommits in
    let newPrefix := fst (parseVersionString newVersion) in
    newest <- lastCommit newCommits ;;
    let newVersionEntry :=
      Version.make newVersion today finalVersionType
        (generateVersionTitle allChanges finalVersionType newPrefix)
        allChanges (JS.trim technicalNotes)
        (map ChangelogEntry.description (filter (isType breaking) allChanges))
        (CommitInfo.hash newest) newPrefix in
    writeChangelog
      (ChangelogData.make newVersion
         (newVersionEntry :: ChangelogData.versions changelogData)) ;;;
    ret (Versioned newVersionEntry).

(** ** Grouping the history into versions *)

Module Group.
Record t : Type := make {
  commits : list CommitInfo.t;
  date : DateString;
  type : VersionType;
  title : string
}.
End Group.

(** [new Date(date).getTime()]: milliseconds at midnight UTC of the day;
    [None] is the NaN of an invalid date. *)
Definition getTime (date : DateString) : option Z :=
  match date with
  | Day d => Some (d * 86400000)%Z
  | NoDate => None
  end.

(** [daysDifference(date1, date2)] (lines 855-859); the quotient is exact, both times
    being whole days. *)
Definition daysDifference (date1 date2 : DateString) : option Z :=
  match getTime date1, getTime date2 with
  | Some d1, Some d2 => Some (Z.abs ((d2 - d1) / (1000 * 60 * 60 * 24)))%Z
  | _, _ => None
  end.

(** [x > n], false on NaN. *)
Definition greaterThan (x : option Z) (n : Z) : bool :=
  match x with
  | Some v => (n <? v)%Z
  | None => false
  end.

(** Truthiness of a date string. *)
Definition dateSet (date : DateString) : bool :=
  match date with
  | Day _ => true
  | NoDate => false
  end.

(** [generateGroupTitle(commits)] (lines 864-875) *)
Definition generateGroupTitle (commits : list CommitInfo.t) : string :=
  let features :=
    filter (fun c => JS.startsWith (CommitInfo.title c) "feat(") commits in
  let fixes :=
    filter (fun c => JS.startsWith (CommitInfo.title c) "fix(") commits in
  if (0 <? List.length features)%nat then "Nuevas funcionalidades y mejoras"
  else if (0 <? List.length fixes)%nat then "Correcciones y optimizaciones"
  else "Mejoras del sistema".

(** The loop variables of [groupCommitsIntoVersions]. *)
Record GroupState : Type := mkGroupState {
  groups : list Group.t;
  currentGroup : list CommitInfo.t;
  currentDate : DateString
}.

(** The object pushed for the running group. *)
Definition closeGroup (st : GroupState) : Group.t :=
  Group.make (currentGroup st) (currentDate st)
             (determineVersionType (currentGroup st))
             (generateGroupTitle (currentGroup st)).

(** The guarded [groups.push(...)] of the running group. *)
Definition pushGroup (st : GroupState) : list Group.t :=
  if (0 <? List.length (currentGroup st))%nat
  then groups st ++ [closeGroup st]
  else groups st.

(** The test that opens a new group at [commit]. *)
Definition startsNewGroup (st : GroupState) (commit : CommitInfo.t) : bool :=
  negb (dateSet (currentDate st))
  || greaterThan (daysDifference (currentDate st) (CommitInfo.date commit)) 7
  || (10 <=? List.length (currentGroup st))%nat.

(** One turn of the loop over the commits. *)
Definition groupStep (st : GroupState) (commit : CommitInfo.t) : GroupState :=
  if startsNewGroup st commit
  then mkGroupState (pushGroup st) [commit] (CommitInfo.date commit)
  else mkGroupState (groups st) (currentGroup st ++ [commit]) (currentDate st).

(** The state of [groupCommitsIntoVersions] before its loop. *)
Definition noGroups : GroupState := mkGroupState [] [] NoDate.

(** [groupCommitsIntoVersions(commits)] (lines 802-850) *)
Definition groupCommitsIntoVersions (commits : list CommitInfo.t)
  : list Group.t :=
  rev (pushGroup (fold_left groupStep commits noGroups)).

(** [generateVersionNumber(index, total)] (lines 880-889) *)
Definition generateVersionNumber (index total : nat) : string :=
  if (total =? 1)%nat then "1.0.0"
  else if (index =? 0)%nat then "1.0.0"
  else if (index <? 3)%nat
       then "0." ++ JS.decimal (N.of_nat (9 - index)) ++ ".0"
  else "0.1." ++ JS.decimal (N.of_nat (Nat.max 1 (total - index))).

(** The [Version] that [initializeFromHistory] makes of group [i]. *)
Definition groupVersion (total i : nat) (group : Group.t) : M Version.t :=
  let versionNumber := generateVersionNumber i total in
  let allChanges := collectChanges (Group.commits group) in
  let technicalNotes := collectTechnicalNotes (Group.commits group) in
  newest <- lastCommit (Group.commits group) ;;
  ret (Version.make versionNumber (Group.date group) (Group.type group)
         (Group.title group) allChanges (JS.trim technicalNotes)
         (map ChangelogEntry.description (filter (isType breaking) allChanges))
         (CommitInfo.hash newest) None).

(** The loop over the groups, from index [i]. *)
Fixpoint groupVersions (total i : nat) (gs : list Group.t)
  : M (list Version.t) :=
  match gs with
  | [] => ret []
  | g :: rest =>
      v <- groupVersion total i g ;;
      vs <- groupVersions total (S i) rest ;;
      ret (v :: vs)
  end.


(** ** The script entry point *)

(** What the script does with its arguments, up to the method it calls. *)
Inductive Action : Type :=
  | Exit (code : Z)
  | RunInit
  | RunSync
  | RunAnalyze (options : Options).

(** [args[i + 1]] when truthy. *)
Definition argAfter (args : list string) (i : nat) : option string :=
  match nth_error args (i + 1) with
  | Some a => if JS.truthy a then Some a else None
  | None => None
  end.

Definition versionTypeOf (s : string) : option VersionType :=
  if s =? "major" then Some major
  else if s =? "minor" then Some minor
  else if s =? "patch" then Some patch
  else None.

(** The body of [if (import.meta.main)] (lines 893-952), with [args] the
    command line after the script name. *)
Definition cli (args : list string) : Action :=
  let has := fun flag => existsb (String.eqb flag) args in
  let isInit := has "--init" || has "-i" in
  let isSync := has "--sync" || has "-s" in
  let type_ :=
    match indexOf String.eqb args "--type" with
    | Some typeIndex => argAfter args typeIndex
    | None => None
    end in
  let prefix_ :=
    match indexOf String.eqb args "--prefix" with
    | Some prefixIndex =>
        Some (match argAfter args prefixIndex with
              | Some p => p
              | None => ""
              end)
    | None => None
    end in
  match type_, option_map versionTypeOf type_ with
  | Some _, Some None => Exit 1
  | _, checked =>
      if has "--help" || has "-h" then Exit 0
      else if isInit then RunInit
      else if isSync then RunSync
      else RunAnalyze
             (mkOptions
                (match checked with
                 | Some t => t
                 | None => None
                 end)
                (match prefix_ with
                 | Some p => if p =? "" then None else Some p
                 | None => None
                 end))
  end.

(** ** Sections of a commit message *)

(** The text before and after the first occurrence of [tag] in [s]. *)
Fixpoint cutAt (tag s : string) : option (string * string) :=
  match dropPrefix tag s with
  | Some rest => Some (EmptyString, rest)
  | None =>
      match s with
      | EmptyString => None
      | String c s' =>
          match cutAt tag s' with
          | Some (before, after) => Some (String c before, after)
          | None => None
          end
      end
  end.

(** Group 1 of [message.match(/<tag>([\s\S]*?)<\/tag>/)]: the match
    starts at the first opening tag that a closing tag follows, which is
    the first opening tag when there is one at all, and the lazy group
    stops at the first closing tag after it. *)
Definition matchSection (opening closing message : string) : option string :=
  match cutAt opening message with
  | Some (_, rest) =>
      match cutAt closing rest with
      | Some (body, _) => Some body
      | None => None
      end
  | None => None
  end.

(** [parseCommitMessage(message)] (lines 124-132): the record
    [{ technical?, changelog? }] as a pair. *)
Definition parseCommitMessage (message : string)
  : option string * option string :=
  (option_map JS.trim (matchSection "<technical>" "</technical>" message),
   option_map JS.trim (matchSection "<changelog>" "</changelog>" message)).

(** ** The last versioned commit *)

(** The comparator [(a, b) => time(b) - time(a)] of lines 319-321; a NaN
    result counts as 0 for [sort]. *)
Definition newerFirst (a b : Version.t) : Z :=
  match getTime (Version.date b), getTime (Version.date a) with
  | Some tb, Some ta => (tb - ta)%Z
  | _, _ => 0%Z
  end.

(** Puts [x] before the first element it does not sort after. *)
Fixpoint insertVersion (x : Version.t) (l : list Version.t)
  : list Version.t :=
  match l with
  | [] => [x]
  | y :: r =>
      if (0 <? newerFirst x y)%Z then y :: insertVersion x r else x :: l
  end.

(** [[...versions].sort(newerFirst)].  The sort is stable, so with dates
    that are all days its result is the one arrangement that this
    insertion sort computes; with an invalid date among several versions
    the comparator is no ordering and the result is left to the engine:
    [None]. *)
Definition sortVersions (versions : list Version.t)
  : option (list Version.t) :=
  if forallb (fun v => dateSet (Version.date v)) versions
     || (List.length versions <=? 1)%nat
  then Some (fold_right insertVersion [] versions)
  else None.

(** [getLastVersionedCommit(data)] (lines 318-324); the inner [None] is
    [undefined]. *)
Definition getLastVersionedCommit (data : ChangelogData.t)
  : option (option string) :=
  option_map (fun sortedVersions =>
                match sortedVersions with
                | v :: _ => Some (Version.commit_hash v)
                | [] => None
                end)
             (sortVersions (ChangelogData.versions data)).

(** ** Versions for strict consumers *)

(** The version that [updateTauriVersion] and [updateCargoVersion] write
    (lines 532-533 and 547-551): the base of the parsed version. *)
Definition strictVersion (version : string) : string :=
  snd (parseVersionString version).

(** ** Vocabulary of the statements *)

(** A base of three dot-separated runs of decimal digits. *)
Definition isTriple (base : string) : bool :=
  match JS.split "." base with
  | [a; b; c] =>
      JS.truthy a && JS.allDigits a && JS.truthy b && JS.allDigits b
      && JS.truthy c && JS.allDigits c
  | _ => false
  end.

(** A valid version string: a triple, or a prefix token and a triple. *)
Definition validVersion (s : string) : bool :=
  isTriple s
  || existsb (fun t => match dropPrefix t s with
                       | Some base => isTriple base
                       | None => false
                       end) prefixTokens.

(** Every character of the string passes the test. *)
Fixpoint allChars (f : ascii -> bool) (s : string) : bool :=
  match s with
  | EmptyString => true
  | String c s' => f c && allChars f s'
  end.

(** A character that starts no line terminator. *)
Definition plainChar (c : ascii) : bool :=
  negb (Ascii.eqb c "010") && negb (Ascii.eqb c "013")
  && negb (Ascii.eqb c "226").

(** The string of a base triple. *)
Definition baseString (M N P : N) : string :=
  JS.decimal M ++ "." ++ JS.decimal N ++ "." ++ JS.decimal P.

(** The bump rule as the specification words it: major gives (M+1, 0, 0),
    minor (M, N+1, 0), patch (M, N, P+1), anything else the triple
    unchanged. *)
Definition specBump (t : VersionType) (b : N * N * N) : N * N * N :=
  let '(M, N, P) := b in
  match t with
  | major => (M + 1, 0, 0)%N
  | minor => (M, N + 1, 0)%N
  | patch => (M, N, P + 1)%N
  | initial => (M, N, P)
  end.

(** No prefix, or one of the four channel prefixes. *)
Definition recognized (pre : option string) : Prop :=
  match pre with
  | Some p => In p validPrefixes
  | None => True
  end.

(** [w] occurs in [s]. *)
Definition contains (s w : string) : Prop :=
  exists before after, s = before ++ w ++ after.

(** The kind of a section as the specification words it: "breaking"
    first, then "fix" or the bug emoji, then "feature" or the sparkles
    emoji, else improvement. *)
Definition specSectionType (section : string) : EntryType :=
  if JS.includes section "breaking" then breaking
  else if JS.includes section "fix" || JS.includes section bugEmoji then fix_
  else if JS.includes section "feature" || JS.includes section sparklesEmoji
       then feature
  else improvement.

(** The bump type as the specification words it, from the kinds of the
    entries: any breaking entry gives major, else any feature entry
    minor, else patch. *)
Definition specBumpType (batch : list ChangelogEntry.t) : VersionType :=
  if existsb (isType breaking) batch then major
  else if existsb (isType feature) batch then minor
  else patch.

(** The changelog section of the commit has [w] in it. *)
Definition sectionContains (c : CommitInfo.t) (w : string) : Prop :=
  exists s, CommitInfo.changelog_section c = Some s /\ contains s w.

(** The same on the lower-cased section. *)
Definition sectionLowerContains (c : CommitInfo.t) (w : string) : Prop :=
  exists s, CommitInfo.changelog_section c = Some s
            /\ contains (JS.toLowerCase s) w.

(** The marks of a feature that [determineVersionType] looks for. *)
Definition featureMark (c : CommitInfo.t) : Prop :=
  (exists rest, CommitInfo.title c = "feat(" ++ rest)
  \/ sectionContains c sparklesEmoji
  \/ sectionLowerContains c "feature".

(** The commit carries a day, as every commit read from git does. *)
Definition dated (c : CommitInfo.t) : Prop :=
  exists d, CommitInfo.date c = Day d.

(** The gap rule as the specification words it: the days between the
    date of the commit and the anchor of the running group, the date of
    its first commit, exceed seven. *)
Definition gapExceeded (running : list CommitInfo.t) (c : CommitInfo.t)
  : Prop :=
  exists first rest a d,
    running = first :: rest
    /\ CommitInfo.date first = Day a
    /\ CommitInfo.date c = Day d
    /\ (7 < Z.abs (d - a))%Z.

(** A history with one commit per listed day, for the examples. *)
Definition historyOn (days : list Z) : list CommitInfo.t :=
  map (fun d => CommitInfo.make ("c" ++ JS.decimal (Z.to_N d)) (Day d)
                  "chore - housekeeping" "chore - housekeeping" None None)
      days.

(** [text] is what the pair of tags delimits in [message]: the trimmed
    text between the first opening tag and the first closing tag after
    it, or nothing when no opening tag is followed by a closing one. *)
Definition delimited (opening closing message : string)
    (text : option string) : Prop :=
  match text with
  | Some body =>
      exists before raw after,
        message = before ++ opening ++ raw ++ closing ++ after
        /\ body = JS.trim raw
        /\ ~ contains before opening
        /\ ~ contains raw closing
  | None =>
      ~ exists before raw after,
          message = before ++ opening ++ raw ++ closing ++ after
  end.

(** The maturity order: pre-alpha, alpha, beta, rc, then stable. *)
Definition maturity (p : option string) : nat :=
  match p with
  | Some s =>
      if s =? "pre-alpha" then 0
      else if s =? "alpha" then 1
      else if s =? "beta" then 2
      else if s =? "rc" then 3
      else 4
  | None => 4
  end.

(** The order of base triples. *)
Definition tripleLt (a b : N * N * N) : Prop :=
  let '(M, N, P) := a in
  let '(M', N', P') := b in
  (M < M' \/ (M = M' /\ (N < N' \/ (N = N' /\ P < P'))))%N.

(** The history that a run starts from: the stored one, or the empty
    history at 0.1.0 when nothing is stored. *)
Definition storedHistory (w : World) : ChangelogData.t :=
  match changelog_json w with
  | Some data => data
  | None => ChangelogData.make "0.1.0" []
  end.

(** The version is dated with a day, not later than day [t]. *)
Definition datedBy (t : Z) (v : Version.t) : Prop :=
  exists d, Version.date v = Day d /\ (d <= t)%Z.

(** [v] is the first of the versions with the latest day. *)
Definition firstLatest (versions : list Version.t) (v : Version.t) : Prop :=
  exists before after d,
    versions = (before ++ v :: after)%list
    /\ Version.date v = Day d
    /\ Forall (fun u => exists e, Version.date u = Day e /\ (e < d)%Z) before
    /\ Forall (datedBy d) after.

(** A group as [groupCommitsIntoVersions] builds it: between one and ten
    commits, dated like its first commit, typed and titled from its
    commits. *)
Definition wellGrouped (g : Group.t) : Prop :=
  exists first rest,
    Group.commits g = first :: rest
    /\ List.length (Group.commits g) <= 10
    /\ Group.date g = CommitInfo.date first
    /\ Group.type g = determineVersionType (Group.commits g)
    /\ Group.title g = generateGroupTitle (Group.commits g).

(** Every commit of the run is within seven days of the first one. *)
Definition withinWeek (run : list CommitInfo.t) : Prop :=
  forall first rest c,
    run = first :: rest -> In c run ->
    exists a d, CommitInfo.date first = Day a /\ CommitInfo.date c = Day d
                /\ (Z.abs (d - a) <= 7)%Z.

(** The weight of a bump type: patch, minor, major. *)
Definition bumpRank (t : VersionType) : nat :=
  match t with
  | major => 3
  | minor => 2
  | patch => 1
  | initial => 0
  end.

(** * Properties *)

(** ** Strings *)

Section StringFacts.

Lemma dropPrefix_Some (p s r : string) :
  dropPrefix p s = Some r -> s = p ++ r.
Proof.
  revert s.
  induction p as [|a p IH]; intros s H.
  - simpl in H. injection H as ->. reflexivity.
  - destruct s as [|b s]; simpl in H; [discriminate|].
    destruct (Ascii.eqb_spec a b) as [->|]; [|discriminate].
    simpl. f_equal. now apply IH.
Qed.

Lemma truthy_nonempty (s : string) : JS.truthy s = true <-> s <> "".
Proof.
  unfold JS.truthy.
  destruct (String.eqb_spec s ""); simpl; split; congruence.
Qed.

Lemma append_assoc (a b c : string) : (a ++ b) ++ c = a ++ b ++ c.
Proof. induction a; simpl; congruence. Qed.

End StringFacts.

(** ** Version strings: parsing and building *)

(** What [matchTokens] returns is a split of its input: a token and a
    non-empty rest, or no token and the input. *)
Lemma matchTokens_split (tokens : list string) (s : string) :
  match matchTokens tokens s with
  | (Some t, r) => In t tokens /\ s = t ++ r /\ r <> ""
  | (None, r) => r = s
  end.
Proof.
  induction tokens as [|t ts IH]; simpl; [reflexivity|].
  destruct (dropPrefix t s) as [[|c r]|] eqn:E.
  - destruct (matchTokens ts s) as [[u|] r']; intuition.
  - apply dropPrefix_Some in E. repeat split; auto; discriminate.
  - destruct (matchTokens ts s) as [[u|] r']; intuition.
Qed.

Lemma removeFinalHyphen_token (t : string) :
  In t prefixTokens -> removeFinalHyphen t ++ "-" = t.
Proof.
  simpl. intros [<-|[<-|[<-|[<-|[]]]]]; reflexivity.
Qed.

Lemma removeFinalHyphen_truthy (t : string) :
  In t prefixTokens -> JS.truthy (removeFinalHyphen t) = true.
Proof.
  simpl. intros [<-|[<-|[<-|[<-|[]]]]]; reflexivity.
Qed.

(** Building what was parsed gives the input back, for any non-empty
    string. *)
Lemma build_parse (s : string) :
  s <> "" ->
  buildVersionString (fst (parseVersionString s))
                     (Some (snd (parseVersionString s))) = s.
Proof.
  intros Hs.
  assert (Ht : JS.truthy s = true) by now apply truthy_nonempty.
  unfold parseVersionString, versionMatch.
  destruct (JS.hasLineTerminator s).
  - simpl. now rewrite Ht.
  - destruct s as [|c s]; [congruence|].
    pose proof (matchTokens_split prefixTokens (String c s)) as M.
    destruct (matchTokens prefixTokens (String c s)) as [[t|] r];
      cbn [fst snd option_map]; unfold buildVersionString.
    + destruct M as (Hin & Heq & Hr).
      apply truthy_nonempty in Hr. rewrite Hr.
      rewrite (removeFinalHyphen_truthy t Hin). cbn [negb].
      rewrite Heq, <- append_assoc.
      now rewrite (removeFinalHyphen_token t Hin).
    + subst r. now rewrite Ht.
Qed.

(** C3: for every valid version string (three dot-separated non-negative
    integers, with or without one of the prefixes pre-alpha-, alpha-,
    beta-, rc-), parsing it with [parseVersionString] and serializing the
    result with [buildVersionString] gives the string back. *)
Theorem parse_then_build_is_identity (s : string) :
  validVersion s = true ->
  let '(prefix, baseVersion) := parseVersionString s in
  buildVersionString prefix (Some baseVersion) = s.
Proof.
  intros V.
  assert (Hs : s <> "") by (intros ->; discriminate V).
  pose proof (build_parse s Hs) as R.
  now destruct (parseVersionString s).
Qed.

Lemma parse_then_build_is_identity_witness :
  validVersion "rc-10.0.27" = true
  /\ buildVersionString (Some "rc") (Some "10.0.27") = "rc-10.0.27".
Proof.
  split; [reflexivity|].
  exact (parse_then_build_is_identity "rc-10.0.27" eq_refl).
Defined.

(** C10: with an empty or absent base, [buildVersionString] returns
    "1.0.0" whatever the prefix, which is dropped; it is a total function,
    so the empty base is defaulted and nothing is raised. *)
Theorem build_without_base_is_1_0_0 (prefix : option string) :
  buildVersionString prefix None = "1.0.0"
  /\ buildVersionString prefix (Some "") = "1.0.0".
Proof. split; reflexivity. Qed.

(** ** Decimal numerals *)

Section Numerals.

Lemma string_of_uint_digits (d : Decimal.uint) :
  JS.allDigits (NilEmpty.string_of_uint d) = true.
Proof. induction d; simpl; auto. Qed.

Lemma decimal_digits (n : N) : JS.allDigits (JS.decimal n) = true.
Proof. apply string_of_uint_digits. Qed.

Lemma to_uint_not_Nil (n : N) : N.to_uint n <> Decimal.Nil.
Proof.
  intros E.
  pose proof (DecimalN.Unsigned.of_to n) as R.
  rewrite E in R. simpl in R. subst n. discriminate E.
Qed.

Lemma decimal_nonempty (n : N) : JS.decimal n <> "".
Proof.
  unfold JS.decimal.
  pose proof (to_uint_not_Nil n) as H.
  destruct (N.to_uint n); simpl; congruence.
Qed.

Lemma digitsValue_decimal (n : N) : JS.digitsValue (JS.decimal n) = n.
Proof.
  unfold JS.digitsValue, JS.decimal.
  rewrite NilEmpty.usu. apply DecimalN.Unsigned.of_to.
Qed.

(** [Number] reads a safe integer back from its decimal numeral. *)
Lemma Number_decimal (n : N) :
  (n <= JS.MAX_SAFE_INTEGER)%N ->
  JS.Number (JS.decimal n) = Some (JS.Num n).
Proof.
  intros Hn. unfold JS.Number.
  pose proof (decimal_nonempty n) as Hne.
  pose proof (decimal_digits n) as Hd.
  pose proof (digitsValue_decimal n) as Hv.
  destruct (JS.decimal n) as [|c r]; [congruence|].
  rewrite Hd, Hv.
  apply N.leb_le in Hn. now rewrite Hn.
Qed.

End Numerals.

(** ** Splitting and scanning strings without special characters *)

Section Scanning.

Lemma allChars_app (f : ascii -> bool) (a b : string) :
  allChars f (a ++ b) = allChars f a && allChars f b.
Proof. induction a; simpl; [reflexivity|]. now rewrite IHa, andb_assoc. Qed.

Lemma allChars_weaken (f g : ascii -> bool) (s : string) :
  (forall c, f c = true -> g c = true) ->
  allChars f s = true -> allChars g s = true.
Proof.
  intros W. induction s; simpl; [reflexivity|].
  intros H. apply andb_prop in H as [H1 H2].
  now rewrite (W _ H1), IHs.
Qed.

Lemma allDigits_allChars (s : string) :
  JS.allDigits s = allChars JS.isDigit s.
Proof. induction s; simpl; congruence. Qed.

Lemma split_without (sep : ascii) (s : string) :
  allChars (fun c => negb (Ascii.eqb c sep)) s = true ->
  JS.split sep s = [s].
Proof.
  induction s as [|c s IH]; simpl; [reflexivity|].
  intros H. apply andb_prop in H as [H1 H2].
  apply negb_true_iff in H1. rewrite H1, (IH H2). reflexivity.
Qed.

Lemma split_first (sep : ascii) (a b : string) :
  allChars (fun c => negb (Ascii.eqb c sep)) a = true ->
  JS.split sep (a ++ String sep b) = a :: JS.split sep b.
Proof.
  induction a as [|c a IH]; simpl.
  - now rewrite Ascii.eqb_refl.
  - intros H. apply andb_prop in H as [H1 H2].
    apply negb_true_iff in H1. rewrite H1, (IH H2). reflexivity.
Qed.

Lemma prefix_head_differs (a b : ascii) (p s : string) :
  Ascii.eqb b a = false -> String.prefix (String a p) (String b s) = false.
Proof.
  intros H. simpl.
  destruct (ascii_dec a b) as [->|]; [|reflexivity].
  now rewrite Ascii.eqb_refl in H.
Qed.

Lemma plain_no_terminator (s : string) :
  allChars plainChar s = true -> JS.hasLineTerminator s = false.
Proof.
  unfold JS.hasLineTerminator.
  induction s as [|c s IH]; [reflexivity|].
  intros H. simpl in H. apply andb_prop in H as [Hc Hs].
  specialize (IH Hs).
  apply orb_false_iff in IH as [IH PS].
  apply orb_false_iff in IH as [IH LS].
  apply orb_false_iff in IH as [LF CR].
  unfold plainChar in Hc.
  apply andb_prop in Hc as [Hc H226]. apply andb_prop in Hc as [H10 H13].
  apply negb_true_iff in H10, H13, H226.
  cbn [JS.includes].
  unfold JS.LF, JS.CR, JS.LS, JS.PS in *.
  rewrite !prefix_head_differs by assumption.
  rewrite LF, CR, LS, PS. reflexivity.
Qed.

Lemma digit_plain (c : ascii) : JS.isDigit c = true -> plainChar c = true.
Proof.
  destruct c as [[] [] [] [] [] [] [] []]; cbv; congruence.
Qed.

Lemma digit_not_dot (c : ascii) :
  JS.isDigit c = true -> negb (Ascii.eqb c ".") = true.
Proof.
  destruct c as [[] [] [] [] [] [] [] []]; cbv; congruence.
Qed.

End Scanning.

(** ** The increment of a well-formed version *)

Section Increment.

Variables M N P : N.

Let base : string := baseString M N P.

Lemma baseString_split :
  JS.split "." base = [JS.decimal M; JS.decimal N; JS.decimal P].
Proof.
  assert (D : forall n, allChars (fun c => negb (Ascii.eqb c ".")) (JS.decimal n)
                        = true).
  { intros n. apply allChars_weaken with (f := JS.isDigit).
    - apply digit_not_dot.
    - rewrite <- allDigits_allChars. apply decimal_digits. }
  unfold base, baseString.
  change ("." ++ JS.decimal N ++ "." ++ JS.decimal P)
    with (String "." (JS.decimal N ++ String "." (JS.decimal P))).
  rewrite split_first by apply D.
  rewrite split_first by apply D.
  now rewrite split_without by apply D.
Qed.

Lemma baseString_plain : allChars plainChar base = true.
Proof.
  assert (D : forall n, allChars plainChar (JS.decimal n) = true).
  { intros n. apply allChars_weaken with (f := JS.isDigit).
    - apply digit_plain.
    - rewrite <- allDigits_allChars. apply decimal_digits. }
  unfold base, baseString.
  rewrite !allChars_app, !D. reflexivity.
Qed.

Lemma baseString_head :
  exists c r, base = String c r /\ JS.isDigit c = true.
Proof.
  unfold base, baseString.
  pose proof (decimal_nonempty M) as Hne.
  pose proof (decimal_digits M) as Hd.
  destruct (JS.decimal M) as [|c r]; [congruence|].
  exists c. eexists. split; [reflexivity|].
  simpl in Hd. now apply andb_prop in Hd.
Qed.

Lemma matchTokens_digit (c : ascii) (r : string) :
  JS.isDigit c = true ->
  matchTokens prefixTokens (String c r) = (None, String c r).
Proof.
  intros H.
  assert (E : forall a p, JS.isLetter a = true ->
                          dropPrefix (String a p) (String c r) = None).
  { intros a p L. simpl.
    destruct (Ascii.eqb_spec a c) as [->|]; [|reflexivity].
    destruct c as [[] [] [] [] [] [] [] []]; discriminate. }
  unfold matchTokens, prefixTokens.
  now rewrite !E.
Qed.

(** A well-formed version string parses into its prefix and its base. *)
Lemma parse_built (pre : option string) :
  recognized pre ->
  parseVersionString (buildVersionString pre (Some base)) = (pre, base).
Proof.
  intros R.
  destruct baseString_head as (c & r & E & Hc).
  pose proof baseString_plain as Hp.
  unfold buildVersionString. rewrite E in *. cbn [JS.truthy String.eqb negb].
  destruct pre as [p|].
  - simpl in R.
    assert (Hplain : allChars plainChar (p ++ "-" ++ String c r) = true).
    { rewrite !allChars_app, Hp.
      destruct R as [<-|[<-|[<-|[<-|[]]]]]; reflexivity. }
    unfold parseVersionString, versionMatch.
    destruct R as [<-|[<-|[<-|[<-|[]]]]];
      cbn [JS.truthy String.eqb negb] in *;
      rewrite (plain_no_terminator _ Hplain); reflexivity.
  - unfold parseVersionString, versionMatch.
    rewrite (plain_no_terminator _ Hp), matchTokens_digit by assumption.
    reflexivity.
Qed.

End Increment.

(** C2: on a current version with base (M, N, P), [incrementVersion] gives
    base (M+1, 0, 0) for major, (M, N+1, 0) for minor, (M, N, P+1) for
    patch, and leaves the base as it is for a type it does not know
    ([initial]), returning a string in every case; so minor on 1.4.9 is
    1.5.0, major on 0.9.3 is 1.0.0 and patch on 2.0.0 is 2.0.1.  The
    components are safe integers, which the numbers of the code hold
    exactly. *)
Theorem incrementVersion_applies_bump
    (pre : option string) (M N P : N) (type : VersionType)
    (targetPrefix : option string) (overrideType : option VersionType) :
  recognized pre ->
  (M <= JS.MAX_SAFE_INTEGER)%N ->
  (N <= JS.MAX_SAFE_INTEGER)%N ->
  (P <= JS.MAX_SAFE_INTEGER)%N ->
  (let actualType := match overrideType with Some t => t | None => type end in
   let newPrefix := match targetPrefix with Some t => Some t | None => pre end in
   let '(M', N', P') := specBump actualType (M, N, P) in
   incrementVersion (buildVersionString pre (Some (baseString M N P)))
                    type targetPrefix overrideType
   = Some (buildVersionString newPrefix (Some (baseString M' N' P'))))
  /\ incrementVersion "1.4.9" minor None None = Some "1.5.0"
  /\ incrementVersion "0.9.3" major None None = Some "1.0.0"
  /\ incrementVersion "2.0.0" patch None None = Some "2.0.1"
  /\ incrementVersion "2.0.0" initial None None = Some "2.0.0".
Proof.
  intros R HM HN HP.
  split; [|repeat split; reflexivity].
  unfold incrementVersion.
  rewrite (parse_built M N P pre R), baseString_split.
  unfold component. cbn [nth_error option_map].
  rewrite !Number_decimal by assumption.
  cbn [option_map].
  destruct (match overrideType with Some t => t | None => type end);
    cbn [specBump option_map JS.plus1 JS.toString]; reflexivity.
Qed.

Lemma incrementVersion_applies_bump_witness :
  incrementVersion "beta-3.11.7" patch (Some "rc") (Some minor)
  = Some "rc-3.12.0".
Proof.
  refine (proj1 (incrementVersion_applies_bump (Some "beta") 3 11 7 patch
                   (Some "rc") (Some minor) _ _ _ _)).
  - simpl. auto.
  - vm_compute. discriminate.
  - vm_compute. discriminate.
  - vm_compute. discriminate.
Defined.

(** ** Occurrences *)

Section Occurrences.

Lemma prefix_spec (p s : string) :
  String.prefix p s = true <-> exists rest, s = p ++ rest.
Proof.
  revert s. induction p as [|a p IH]; intros s.
  - split; [intros _; now exists s|intros _; now destruct s].
  - destruct s as [|b s]; simpl.
    + split; [discriminate|intros [r E]; discriminate E].
    + destruct (ascii_dec a b) as [->|Hab].
      * rewrite IH. split; intros [r E]; exists r; [now subst|].
        now injection E.
      * split; [discriminate|intros [r E]; injection E; congruence].
Qed.

Lemma includes_spec (s w : string) :
  JS.includes s w = true <-> contains s w.
Proof.
  unfold contains. induction s as [|c s IH]; cbn [JS.includes].
  - rewrite orb_false_r, prefix_spec. split.
    + intros [r E]. now exists "", r.
    + intros (b & a & E). destruct b; [now exists a|discriminate].
  - rewrite orb_true_iff, IH. split.
    + intros [H|(b & a & E)].
      * apply prefix_spec in H as [r E]. now exists "", r.
      * exists (String c b), a. simpl. now rewrite E.
    + intros (b & a & E). destruct b as [|c' b].
      * left. apply prefix_spec. now exists a.
      * right. exists b, a. simpl in E. now injection E.
Qed.

Lemma toLowerCase_app (a b : string) :
  JS.toLowerCase (a ++ b) = JS.toLowerCase a ++ JS.toLowerCase b.
Proof. induction a; simpl; congruence. Qed.

(** An occurrence survives lower-casing. *)
Lemma contains_toLowerCase (s w : string) :
  contains s w -> contains (JS.toLowerCase s) (JS.toLowerCase w).
Proof.
  intros (b & a & ->).
  exists (JS.toLowerCase b), (JS.toLowerCase a).
  now rewrite !toLowerCase_app.
Qed.

Lemma startsWith_spec (s p : string) :
  JS.startsWith s p = true <-> exists rest, s = p ++ rest.
Proof. apply prefix_spec. Qed.

End Occurrences.

(** ** Kinds of changelog entries *)

(** C4, as the code has it: the entries of a subsection all get the kind
    of the lower-cased heading, looked up in this order: "fix" or the bug
    emoji gives fix; else "feature" or the sparkles emoji gives feature;
    else "breaking" gives breaking; else improvement.  There is one entry
    per bulleted line, so no heading fails to classify. *)
Theorem section_kind_by_heading
    (section : string) (items : list string) (e : ChangelogEntry.t) :
  In e (processSectionEntries section items) ->
  let fixes := contains section "fix" \/ contains section bugEmoji in
  let features :=
    contains section "feature" \/ contains section sparklesEmoji in
  (fixes -> ChangelogEntry.type e = fix_)
  /\ (~ fixes -> features -> ChangelogEntry.type e = feature)
  /\ (~ fixes -> ~ features -> contains section "breaking" ->
      ChangelogEntry.type e = breaking)
  /\ (~ fixes -> ~ features -> ~ contains section "breaking" ->
      ChangelogEntry.type e = improvement)
  /\ map ChangelogEntry.description (processSectionEntries section items)
     = items.
Proof.
  intros Hin fixes features.
  assert (T : ChangelogEntry.type e = sectionType section).
  { unfold processSectionEntries in Hin.
    apply in_map_iff in Hin as (x & <- & _). reflexivity. }
  assert (D : map ChangelogEntry.description
                (processSectionEntries section items) = items).
  { unfold processSectionEntries. rewrite map_map. simpl. apply map_id. }
  rewrite T. unfold sectionType, fixes, features.
  rewrite <- !includes_spec.
  destruct (JS.includes section "fix"), (JS.includes section bugEmoji),
    (JS.includes section "feature"), (JS.includes section sparklesEmoji),
    (JS.includes section "breaking"); simpl;
    repeat split; auto; intros; try tauto; try congruence;
    exfalso; intuition congruence.
Qed.

Lemma section_kind_by_heading_witness :
  ChangelogEntry.type (ChangelogEntry.make fix_ "Resolved crash on startup"
                         "Resolved crash on startup.") = fix_.
Proof.
  refine (proj1 (section_kind_by_heading "fixed 🐛"
                   ["Resolved crash on startup."] _ _) _).
  - simpl. left. reflexivity.
  - left. apply includes_spec. reflexivity.
Defined.

(** C4, as the specification words it, fails: a heading with both
    "breaking" and "fix" in it gives fix entries, not breaking ones. *)
Lemma heading_breaking_fixes_is_fix :
  map ChangelogEntry.type
      (parseChangelogSection
         ("## Breaking fixes" ++ JS.LF ++ "- Dropped the legacy flag."))
  = [fix_]
  /\ map ChangelogEntry.type
       (processSectionEntries "breaking fixes" ["Dropped the legacy flag."])
     = [fix_]
  /\ specSectionType "breaking fixes" = breaking
  /\ sectionType "breaking fixes" <> specSectionType "breaking fixes".
Proof. repeat split; try reflexivity. discriminate. Qed.

(** ** Detection of the bump type *)

Section Detection.

Lemma sectionIncludes_spec (c : CommitInfo.t) (w : string) :
  sectionIncludes c w = true <-> sectionContains c w.
Proof.
  unfold sectionIncludes, sectionContains.
  destruct (CommitInfo.changelog_section c) as [s|].
  - rewrite includes_spec. split.
    + intros H. now exists s.
    + intros (s' & E & H). now injection E as ->.
  - split; [discriminate|intros (s' & E & _); discriminate].
Qed.

Lemma sectionLowerIncludes_spec (c : CommitInfo.t) (w : string) :
  sectionLowerIncludes c w = true <-> sectionLowerContains c w.
Proof.
  unfold sectionLowerIncludes, sectionLowerContains.
  destruct (CommitInfo.changelog_section c) as [s|].
  - rewrite includes_spec. split.
    + intros H. now exists s.
    + intros (s' & E & H). now injection E as ->.
  - split; [discriminate|intros (s' & E & _); discriminate].
Qed.

Lemma hasBreaking_spec (commits : list CommitInfo.t) :
  hasBreaking commits = true <->
  exists c, In c commits
            /\ (sectionContains c "breaking"
                \/ contains (JS.toLowerCase (CommitInfo.title c)) "breaking").
Proof.
  unfold hasBreaking. rewrite existsb_exists.
  split; intros (c & Hin & H); exists c; split; auto.
  - apply orb_true_iff in H.
    now rewrite sectionIncludes_spec, includes_spec in H.
  - apply orb_true_iff.
    now rewrite sectionIncludes_spec, includes_spec.
Qed.

Lemma hasFeature_spec (commits : list CommitInfo.t) :
  hasFeature commits = true <-> exists c, In c commits /\ featureMark c.
Proof.
  unfold hasFeature, featureMark. rewrite existsb_exists.
  split; intros (c & Hin & H); exists c; split; auto.
  - rewrite !orb_true_iff in H.
    rewrite startsWith_spec, sectionIncludes_spec,
      sectionLowerIncludes_spec in H. tauto.
  - rewrite !orb_true_iff.
    rewrite startsWith_spec, sectionIncludes_spec,
      sectionLowerIncludes_spec. tauto.
Qed.

Lemma sectionContains_lower (c : CommitInfo.t) :
  sectionContains c "breaking" -> sectionLowerContains c "breaking".
Proof.
  intros (s & E & H). exists s. split; [assumption|].
  now apply contains_toLowerCase in H.
Qed.

End Detection.

(** ** From the entries back to the text *)

Section Segments.

Lemma append_empty (s : string) : s ++ "" = s.
Proof. induction s; simpl; congruence. Qed.

Lemma contains_refl (s : string) : contains s s.
Proof. exists "", "". simpl. now rewrite append_empty. Qed.

Lemma contains_trans (s x w : string) :
  contains s x -> contains x w -> contains s w.
Proof.
  intros (b1 & a1 & ->) (b2 & a2 & ->).
  exists (b1 ++ b2), (a2 ++ a1).
  now rewrite !append_assoc.
Qed.

Lemma contains_prefix (x r : string) : contains (x ++ r) x.
Proof. now exists "", r. Qed.

Lemma contains_suffix (p x : string) : contains (p ++ x) x.
Proof. exists p, "". now rewrite append_empty. Qed.

Lemma contains_tail (c : ascii) (s w : string) :
  contains s w -> contains (String c s) w.
Proof. intros (b & a & ->). now exists (String c b), a. Qed.

Lemma split_head (sep : ascii) (s w : string) (ws : list string) :
  JS.split sep s = w :: ws -> exists r, s = w ++ r.
Proof.
  revert w ws. induction s as [|c s IH]; intros w ws; simpl.
  - intros H. injection H as <- <-. now exists "".
  - destruct (Ascii.eqb c sep).
    + intros H. injection H as <- <-. now exists (String c s).
    + destruct (JS.split sep s) as [|w' ws'] eqn:E.
      * intros H. injection H as <- <-. now exists s.
      * intros H. injection H as <- <-.
        destruct (IH w' ws' eq_refl) as [r ->]. now exists r.
Qed.

(** A piece of [split] is a part of the string. *)
Lemma split_piece (sep : ascii) (s piece : string) :
  In piece (JS.split sep s) -> contains s piece.
Proof.
  induction s as [|c s IH]; simpl.
  - intros [<-|[]]. apply contains_refl.
  - destruct (Ascii.eqb c sep).
    + intros [<-|H]; [now exists "", (String c s)|].
      apply contains_tail. now apply IH.
    + destruct (JS.split sep s) as [|w ws] eqn:E.
      * intros [<-|[]]. now exists "", s.
      * intros [<-|H].
        -- destruct (split_head sep s w ws E) as [r ->].
           now exists "", r.
        -- apply contains_tail. apply IH. now right.
Qed.

Lemma trimStart_suffix (s : string) :
  exists p, s = p ++ JS.trimStart s.
Proof.
  induction s as [|c s [p IH]]; simpl.
  - now exists "".
  - destruct (JS.isSpace c).
    + exists (String c p). simpl. now rewrite <- IH.
    + now exists "".
Qed.

Lemma trimEnd_prefix (s : string) :
  exists r, s = JS.trimEnd s ++ r.
Proof.
  induction s as [|c s [r IH]]; simpl.
  - now exists "".
  - destruct (JS.trimEnd s) as [|c' t] eqn:E.
    + destruct (JS.isSpace c).
      * now exists (String c s).
      * exists r. simpl in *. now rewrite <- IH.
    + exists r. simpl in *. now rewrite <- IH.
Qed.

Lemma trim_part (s : string) : contains s (JS.trim s).
Proof.
  unfold JS.trim.
  destruct (trimStart_suffix s) as [p Hp].
  destruct (trimEnd_prefix (JS.trimStart s)) as [r Hr].
  exists p, r. now rewrite <- Hr.
Qed.

Lemma stripMarker_part (marker line : string) :
  contains line (stripMarker marker line).
Proof.
  unfold stripMarker.
  destruct (dropPrefix marker line) as [rest|] eqn:E.
  - apply dropPrefix_Some in E as ->.
    apply contains_trans with rest; [apply contains_suffix|].
    destruct (trimStart_suffix rest) as [p Hp].
    rewrite Hp at 1. apply contains_suffix.
  - apply contains_refl.
Qed.

(** The lines of a changelog are parts of it. *)
Lemma changelogLines_part (changelog line : string) :
  In line (changelogLines changelog) -> contains changelog line.
Proof.
  unfold changelogLines. intros H.
  apply filter_In in H as [H _].
  apply in_map_iff in H as (piece & <- & H).
  apply contains_trans with piece.
  - now apply split_piece in H.
  - apply trim_part.
Qed.

Lemma toLowerCase_split (x p q : string) :
  JS.toLowerCase x = p ++ q ->
  exists p' q', x = p' ++ q' /\ JS.toLowerCase p' = p /\ JS.toLowerCase q' = q.
Proof.
  revert x. induction p as [|a p IH]; intros x H.
  - now exists "", x.
  - destruct x as [|c x]; [discriminate|].
    simpl in H. injection H as Ha H.
    destruct (IH x H) as (p' & q' & -> & <- & <-).
    exists (String c p'), q'. simpl. now rewrite Ha.
Qed.

(** A byte that is not a small ASCII letter comes from itself. *)
Lemma lowerChar_kept (c b : ascii) :
  JS.lowerChar c = b -> JS.upperChar b = b -> JS.lowerChar b = b -> c = b.
Proof.
  intros <-.
  destruct c as [[] [] [] [] [] [] [] []]; cbv; congruence.
Qed.

(** The sparkles emoji in the lower-cased text is in the text. *)
Lemma sparkles_before_lowering (x : string) :
  contains (JS.toLowerCase x) sparklesEmoji -> contains x sparklesEmoji.
Proof.
  intros (b & a & H).
  apply toLowerCase_split in H as (b' & r & -> & _ & H).
  apply toLowerCase_split in H as (w & a' & -> & H & _).
  exists b', a'. do 2 f_equal.
  destruct w as [|c1 [|c2 [|c3 [|? ?]]]]; try discriminate H.
  simpl in H. unfold sparklesEmoji in *.
  injection H as H1 H2 H3.
  apply lowerChar_kept in H1, H2, H3; try reflexivity.
  now subst.
Qed.

End Segments.

Section EntriesOfSections.

Variable changelog : string.

(** A heading of the changelog, as the loop keeps it. *)
Let heading (h : string) : Prop :=
  exists line, In line (changelogLines changelog)
               /\ h = JS.toLowerCase (stripMarker "##" line).

Let typed (acc : list ChangelogEntry.t) : Prop :=
  forall e, In e acc ->
            exists h, heading h /\ ChangelogEntry.type e = sectionType h.

Let sound (st : SectionState) : Prop :=
  typed (entries st)
  /\ (currentSection st = "" \/ heading (currentSection st)).

Lemma flushSection_typed (st : SectionState) :
  sound st -> typed (flushSection st).
Proof.
  intros [T C]. unfold flushSection.
  destruct (JS.truthy (currentSection st)) eqn:E; cbn [andb]; [|exact T].
  destruct (0 <? List.length (currentEntries st))%nat; [|exact T].
  intros e H. apply in_app_or in H as [H|H]; [now apply T|].
  destruct C as [C|C].
  - rewrite C in E. discriminate E.
  - exists (currentSection st). split; [assumption|].
    unfold processSectionEntries in H.
    now apply in_map_iff in H as (x & <- & _).
Qed.

Lemma sectionStep_sound (st : SectionState) (line : string) :
  In line (changelogLines changelog) -> sound st -> sound (sectionStep st line).
Proof.
  intros Hin S. unfold sectionStep.
  destruct (JS.startsWith line "##").
  - split; cbn [entries currentSection].
    + now apply flushSection_typed.
    + right. now exists line.
  - destruct (JS.startsWith line "-"); [|assumption].
    exact S.
Qed.

Lemma fold_sectionStep_sound (ls : list string) (st : SectionState) :
  (forall line, In line ls -> In line (changelogLines changelog)) ->
  sound st -> sound (fold_left sectionStep ls st).
Proof.
  revert st. induction ls as [|l ls IH]; intros st Hls S; [exact S|].
  simpl. apply IH.
  - intros line H. apply Hls. now right.
  - apply sectionStep_sound; [|assumption]. apply Hls. now left.
Qed.

(** Every entry parsed from a changelog has the kind of one of its
    headings. *)
Lemma parsed_entry_heading (e : ChangelogEntry.t) :
  In e (parseChangelogSection changelog) ->
  exists line,
    In line (changelogLines changelog)
    /\ ChangelogEntry.type e
       = sectionType (JS.toLowerCase (stripMarker "##" line)).
Proof.
  unfold parseChangelogSection.
  destruct (JS.truthy changelog); cbn [negb]; [|intros []].
  intros H.
  assert (S : sound (fold_left sectionStep (changelogLines changelog)
                       (mkSectionState [] "" []))).
  { apply fold_sectionStep_sound; [auto|].
    split; [intros x []|now left]. }
  destruct (flushSection_typed _ S e H) as (h & (line & Hl & ->) & T).
  now exists line.
Qed.

End EntriesOfSections.

Section FeatureEntries.

Lemma sectionType_feature (h : string) :
  sectionType h = feature ->
  contains h "feature" \/ contains h sparklesEmoji.
Proof.
  unfold sectionType. rewrite <- !includes_spec.
  destruct (JS.includes h "fix" || JS.includes h bugEmoji); [discriminate|].
  destruct (JS.includes h "feature"); [auto|].
  destruct (JS.includes h sparklesEmoji); [auto|].
  cbn [orb]. destruct (JS.includes h "breaking"); discriminate.
Qed.

(** A commit that contributes a feature entry carries a feature mark. *)
Lemma feature_entry_mark (c : CommitInfo.t) (e : ChangelogEntry.t) :
  In e (commitChanges c) -> ChangelogEntry.type e = feature -> featureMark c.
Proof.
  unfold commitChanges, featureMark.
  assert (T : In e [titleEntry c] -> ChangelogEntry.type e = feature ->
              exists rest, CommitInfo.title c = "feat(" ++ rest).
  { intros [<-|[]]. unfold titleEntry. cbn [ChangelogEntry.type].
    destruct (JS.startsWith (CommitInfo.title c) "feat(") eqn:E.
    - intros _. now apply startsWith_spec.
    - destruct (JS.startsWith (CommitInfo.title c) "fix("); discriminate. }
  destruct (CommitInfo.changelog_section c) as [s|] eqn:Es; [|now left; auto].
  destruct (JS.truthy s); [|now left; auto].
  intros H Hf. right.
  apply parsed_entry_heading in H as (line & Hl & Ht).
  rewrite Hf in Ht. symmetry in Ht.
  apply changelogLines_part in Hl.
  pose proof (stripMarker_part "##" line) as Hm.
  pose proof (contains_trans _ _ _ Hl Hm) as Hs.
  apply sectionType_feature in Ht as [Ht|Ht].
  - right. exists s. split; [exact Es|].
    apply contains_toLowerCase in Hs.
    now apply contains_trans with (2 := Ht).
  - left. exists s. split; [exact Es|].
    apply sparkles_before_lowering in Ht.
    now apply contains_trans with (2 := Ht).
Qed.

(** A batch with a feature entry is detected as minor or as major. *)
Lemma feature_entry_not_patch (commits : list CommitInfo.t) :
  existsb (isType feature) (collectChanges commits) = true ->
  determineVersionType commits <> patch.
Proof.
  intros H. apply existsb_exists in H as (e & Hin & He).
  assert (Hf : ChangelogEntry.type e = feature).
  { unfold isType in He. destruct (ChangelogEntry.type e); congruence. }
  unfold collectChanges in Hin.
  apply in_flat_map in Hin as (c & Hc & Hin).
  assert (F : hasFeature commits = true).
  { apply hasFeature_spec. exists c. split; [assumption|].
    now apply feature_entry_mark with e. }
  unfold determineVersionType. rewrite F.
  destruct (hasBreaking commits); discriminate.
Qed.

End FeatureEntries.

(** C1, as the code has it: the bump type is detected from the text of
    the commits, not from the kinds of their entries.  It is major when
    the changelog section of some commit contains "breaking", or its
    lower-cased title does.  When "breaking" occurs in no title and in no
    changelog section, whatever the case of its letters, the type is
    minor if some commit has a title starting with "feat(" or a changelog
    section with the sparkles emoji or (lower-cased) "feature" in it, and
    patch otherwise.  A batch whose entries include a feature entry is
    never detected as patch. *)
Theorem bump_type_from_commit_text (commits : list CommitInfo.t) :
  ((exists c, In c commits
              /\ (sectionContains c "breaking"
                  \/ contains (JS.toLowerCase (CommitInfo.title c))
                              "breaking")) ->
   determineVersionType commits = major)
  /\ ((forall c, In c commits ->
                 ~ sectionLowerContains c "breaking"
                 /\ ~ contains (JS.toLowerCase (CommitInfo.title c))
                               "breaking") ->
      ((exists c, In c commits /\ featureMark c) ->
       determineVersionType commits = minor)
      /\ ((forall c, In c commits -> ~ featureMark c) ->
          determineVersionType commits = patch))
  /\ (existsb (isType feature) (collectChanges commits) = true ->
      determineVersionType commits <> patch).
Proof.
  unfold determineVersionType. split; [|split].
  - intros H. apply hasBreaking_spec in H. now rewrite H.
  - intros Hno.
    assert (B : hasBreaking commits = false).
    { apply not_true_is_false. intros H.
      apply hasBreaking_spec in H as (c & Hin & [H|H]).
      - apply (proj1 (Hno c Hin)). now apply sectionContains_lower.
      - now apply (proj2 (Hno c Hin)). }
    rewrite B. split.
    + intros H. apply hasFeature_spec in H. now rewrite H.
    + intros H.
      assert (F : hasFeature commits = false).
      { apply not_true_is_false. intros H'.
        apply hasFeature_spec in H' as (c & Hin & Hm).
        exact (H c Hin Hm). }
      now rewrite F.
  - apply feature_entry_not_patch.
Qed.

Lemma bump_type_from_commit_text_witness :
  determineVersionType
    [CommitInfo.make "9b1d5e0" (Day 19800) "fix(api) - null check"
       "fix(api) - null check" None None;
     CommitInfo.make "c07a3f2" (Day 19801) "Drop v1 endpoints (BREAKING)"
       "Drop v1 endpoints (BREAKING)" None None] = major.
Proof.
  refine (proj1 (bump_type_from_commit_text _) _).
  eexists. split; [right; left; reflexivity|].
  right. apply includes_spec. reflexivity.
Defined.

(** C1, as the specification words it, fails.  A commit whose changelog
    has the heading "Breaking Changes" gives a breaking entry, and the
    detected type is patch; a commit with a fix entry that mentions a
    "breaking" build gives no breaking entry, and the detected type is
    major. *)
Lemma breaking_entry_detected_as_patch :
  let capital :=
    [CommitInfo.make "4f2a9c1" (Day 19800) "update api" "update api" None
       (Some ("## Breaking Changes" ++ JS.LF ++ "- Removed the old API."))] in
  let mention :=
    [CommitInfo.make "7e31b08" (Day 19800) "fix(ci) - pipeline"
       "fix(ci) - pipeline" None
       (Some ("## Fixes" ++ JS.LF ++ "- Repaired the breaking build."))] in
  map ChangelogEntry.type (collectChanges capital) = [breaking]
  /\ specBumpType (collectChanges capital) = major
  /\ determineVersionType capital = patch
  /\ map ChangelogEntry.type (collectChanges mention) = [fix_]
  /\ specBumpType (collectChanges mention) = patch
  /\ determineVersionType mention = major.
Proof. repeat split; reflexivity. Qed.

(** ** Parsing does not validate *)

(** C7, as the code has it: [parseVersionString] returns a prefix and a
    base for every string and never fails.  The prefix is absent or one
    of the four channel prefixes; with a prefix, the input is the prefix,
    a hyphen and a non-empty base; without, the base is the whole input.
    The base is not looked at: [incrementVersion] goes on with bases that
    are not three integers and prints what the coercions give. *)
Theorem parseVersionString_total_unvalidated (version : string) :
  (let '(prefix, baseVersion) := parseVersionString version in
   recognized prefix
   /\ match prefix with
      | Some p => version = p ++ "-" ++ baseVersion /\ baseVersion <> ""
      | None => baseVersion = version
      end)
  /\ incrementVersion "1.2" patch None None = Some "1.2.NaN"
  /\ incrementVersion "1..2" patch None None = Some "1.0.3"
  /\ incrementVersion "next" minor None None = Some "NaN.NaN.0".
Proof.
  split; [|repeat split; reflexivity].
  unfold parseVersionString, versionMatch.
  destruct (JS.hasLineTerminator version); [simpl; auto|].
  destruct version as [|c s]; [simpl; auto|].
  pose proof (matchTokens_split prefixTokens (String c s)) as M.
  destruct (matchTokens prefixTokens (String c s)) as [[t|] r];
    cbn [option_map]; [|simpl; auto].
  destruct M as (Hin & Heq & Hr).
  repeat split; auto.
  - simpl in Hin. simpl.
    destruct Hin as [<-|[<-|[<-|[<-|[]]]]]; simpl; auto.
  - rewrite Heq at 1. rewrite <- (removeFinalHyphen_token t Hin) at 1.
    apply append_assoc.
Qed.

(** C7, as the specification words it, fails: "1.2" is not a triple, it
    parses without an error, and a patch bump of it is "1.2.NaN". *)
Lemma two_part_version_is_accepted :
  isTriple "1.2" = false
  /\ parseVersionString "1.2" = (None, "1.2")
  /\ incrementVersion "1.2" patch None None = Some "1.2.NaN".
Proof. repeat split; reflexivity. Qed.

(** ** The version cut *)

Section Cut.

Lemma invalid_target_index (p : string) :
  ~ In p validPrefixes -> indexOf sameOption prefixOrder (Some p) = None.
Proof.
  intros H. simpl in H. unfold prefixOrder. cbn [indexOf sameOption].
  repeat match goal with
         | |- context [(?a =? p)%string] =>
             destruct (String.eqb_spec a p); [exfalso; tauto|]
         end.
  reflexivity.
Qed.

Lemma invalid_not_listed (p : string) :
  ~ In p validPrefixes -> existsb (String.eqb p) validPrefixes = false.
Proof.
  intros H. apply not_true_is_false. intros E.
  apply existsb_exists in E as (x & Hin & Hx).
  apply String.eqb_eq in Hx. now subst x.
Qed.

(** An invalid target makes [validatePrefixTransition] throw, with
    nothing written and no warning. *)
Lemma validatePrefixTransition_invalid (current p : string) (w : World) :
  p <> "" -> ~ In p validPrefixes ->
  validatePrefixTransition current (Some p) w
  = (Throw (Error ("❌ Prefijo inválido: " ++ p
                     ++ ". Válidos: pre-alpha, alpha, beta, rc"
                     ++ ", o sin prefijo para stable")), w).
Proof.
  intros Hne Hnot.
  unfold validatePrefixTransition, bind.
  rewrite (invalid_target_index p Hnot).
  apply truthy_nonempty in Hne.
  rewrite Hne, (invalid_not_listed p Hnot).
  destruct (indexOf sameOption prefixOrder
              (fst (parseVersionString current))); reflexivity.
Qed.

Lemma length_zero_iff {A : Type} (l : list A) :
  (List.length l =? 0)%nat = false <-> l <> [].
Proof. destruct l; simpl; split; congruence. Qed.

End Cut.

(** C5, as the code has it: a version cut with at least one new commit
    and a requested prefix that is neither empty (stable) nor one of
    pre-alpha, alpha, beta, rc throws the invalid-prefix error, which
    names the prefix, and leaves the persisted changelog and the warnings
    as they were; with no new commit the cut is a no-op that returns
    before the prefix is looked at, and again writes nothing. *)
Theorem invalid_prefix_throws_before_write
    (newCommits : list CommitInfo.t) (today : DateString)
    (forced : option VersionType) (p : string) (w : World) :
  p <> "" -> ~ In p validPrefixes ->
  (newCommits <> [] ->
   analyzeAndVersion newCommits today (mkOptions forced (Some p)) w
   = (Throw (Error ("❌ Prefijo inválido: " ++ p
                      ++ ". Válidos: pre-alpha, alpha, beta, rc"
                      ++ ", o sin prefijo para stable")), w))
  /\ analyzeAndVersion [] today (mkOptions forced (Some p)) w
     = (Ok NoNewCommits, w).
Proof.
  intros Hne Hnot. split.
  - intros Hc. apply length_zero_iff in Hc.
    unfold analyzeAndVersion, bind, loadChangelogData.
    destruct (changelog_json w); rewrite Hc; cbn [prefix];
      now rewrite validatePrefixTransition_invalid.
  - unfold analyzeAndVersion, bind, loadChangelogData.
    destruct (changelog_json w); reflexivity.
Qed.

Lemma invalid_prefix_throws_before_write_witness :
  let w := mkWorld (Some (ChangelogData.make "beta-0.4.2" [])) [] in
  analyzeAndVersion
    [CommitInfo.make "1c9e4d7" (Day 19800) "fix(sync) - retry"
       "fix(sync) - retry" None None]
    (Day 19805) (mkOptions None (Some "gamma")) w
  = (Throw (Error ("❌ Prefijo inválido: gamma"
                     ++ ". Válidos: pre-alpha, alpha, beta, rc"
                     ++ ", o sin prefijo para stable")), w).
Proof.
  intros w.
  refine (proj1 (invalid_prefix_throws_before_write _ _ None "gamma" w _ _) _).
  - discriminate.
  - simpl. intuition discriminate.
  - discriminate.
Defined.

(** C5, as the specification words it, fails: with no new commit, a cut
    that asks for the unknown prefix "gamma" returns normally. *)
Lemma invalid_prefix_without_commits_is_accepted :
  let w := mkWorld (Some (ChangelogData.make "beta-0.4.2" [])) [] in
  ~ In "gamma" validPrefixes
  /\ analyzeAndVersion [] (Day 19805) (mkOptions None (Some "gamma")) w
     = (Ok NoNewCommits, w).
Proof.
  split; [simpl; intuition discriminate|reflexivity].
Qed.

(** ** The recorded commit *)

Section RecordedCommit.

Lemma last_position (commits : list CommitInfo.t) (c : CommitInfo.t) :
  nth_error commits (List.length commits - 1) = Some c ->
  exists older, commits = (older ++ [c])%list.
Proof.
  destruct commits as [|x l] using rev_ind; [discriminate|].
  intros H. exists l.
  rewrite length_app, Nat.add_sub in H. simpl in H.
  rewrite nth_error_app2, Nat.sub_diag in H by auto.
  simpl in H. now injection H as ->.
Qed.

Lemma lastCommit_Ok (commits : list CommitInfo.t) (c : CommitInfo.t)
    (w w' : World) :
  lastCommit commits w = (Ok c, w') ->
  w' = w /\ exists older, commits = (older ++ [c])%list.
Proof.
  unfold lastCommit.
  destruct (nth_error commits (List.length commits - 1)) as [x|] eqn:E;
    [|discriminate].
  intros H. injection H as -> ->. split; [reflexivity|].
  now apply last_position.
Qed.

(** The version that [initializeFromHistory] makes of a group records
    the last commit of the group. *)
Lemma groupVersion_commit_hash (total i : nat) (g : Group.t)
    (v : Version.t) (w w' : World) :
  groupVersion total i g w = (Ok v, w') ->
  exists older newest,
    Group.commits g = (older ++ [newest])%list
    /\ Version.commit_hash v = CommitInfo.hash newest.
Proof.
  unfold groupVersion, bind.
  destruct (lastCommit (Group.commits g) w) as [[c|e|] w1] eqn:E;
    try discriminate.
  apply lastCommit_Ok in E as (-> & older & E).
  intros H. injection H as <- <-.
  now exists older, c.
Qed.

(** Every version that [initializeFromHistory] writes records the last
    commit of its group. *)
Lemma groupVersions_commit_hash (total : nat) (gs : list Group.t) :
  forall (i : nat) (vs : list Version.t) (w w' : World),
    groupVersions total i gs w = (Ok vs, w') ->
    Forall2 (fun v g =>
               exists older newest,
                 Group.commits g = (older ++ [newest])%list
                 /\ Version.commit_hash v = CommitInfo.hash newest) vs gs.
Proof.
  induction gs as [|g gs IH]; intros i vs w w'; simpl.
  - intros H. injection H as <- _. constructor.
  - unfold bind.
    destruct (groupVersion total i g w) as [[v|e|] w1] eqn:E;
      try discriminate.
    destruct (groupVersions total (S i) gs w1) as [[vs'|e|] w2] eqn:E';
      try discriminate.
    intros H. injection H as <- _.
    constructor; [now apply groupVersion_commit_hash in E|].
    now apply IH in E'.
Qed.

End RecordedCommit.

(** C8, as the code has it: the version record of a cut made from a
    batch of commits, ordered oldest to newest, records the hash of the
    last commit of the batch, which is the newest one; the record is the
    first of the history written. *)
Theorem cut_records_newest_commit
    (newCommits : list CommitInfo.t) (today : DateString) (options : Options)
    (w w' : World) (v : Version.t) :
  analyzeAndVersion newCommits today options w = (Ok (Versioned v), w') ->
  (exists older newest,
     newCommits = (older ++ [newest])%list
     /\ Version.commit_hash v = CommitInfo.hash newest)
  /\ exists history,
       changelog_json w'
       = Some (ChangelogData.make (Version.version v) (v :: history)).
Proof.
  unfold analyzeAndVersion, bind, loadChangelogData.
  set (data := match changelog_json w with
               | Some d => d
               | None => ChangelogData.make "0.1.0" []
               end).
  assert (L : (match changelog_json w with
               | Some d => (Ok d, w)
               | None => (Ok (ChangelogData.make "0.1.0" []), w)
               end) = (Ok data, w))
    by (unfold data; destruct (changelog_json w); reflexivity).
  rewrite L. clear L.
  destruct (List.length newCommits =? 0)%nat; [discriminate|].
  destruct ((match prefix options with
             | Some p =>
                 validatePrefixTransition
                   (ChangelogData.current_version data) (Some p)
             | None => ret tt
             end) w) as [[[]|e|] w1]; try discriminate.
  unfold represented.
  destruct (incrementVersion (ChangelogData.current_version data)
              (determineVersionType newCommits) (prefix options) _)
    as [newVersion|]; [|discriminate].
  destruct (lastCommit newCommits w1) as [[c|e|] w2] eqn:E; try discriminate.
  apply lastCommit_Ok in E as (-> & older & E).
  unfold writeChangelog, ret. intros H. injection H as <- <-.
  split.
  - now exists older, c.
  - now exists (ChangelogData.versions data).
Qed.

Lemma cut_records_newest_commit_witness :
  let batch :=
    [CommitInfo.make "a3f9c21" (Day 19800) "fix(sync) - retry"
       "fix(sync) - retry" None None;
     CommitInfo.make "d84e7b6" (Day 19802) "feat(ui) - dark mode"
       "feat(ui) - dark mode" None None] in
  exists v w',
    analyzeAndVersion batch (Day 19805) (mkOptions None None)
      (mkWorld None []) = (Ok (Versioned v), w')
    /\ exists older newest,
         batch = (older ++ [newest])%list
         /\ Version.commit_hash v = CommitInfo.hash newest.
Proof.
  intros batch. do 2 eexists. split; [lazy; reflexivity|].
  refine (proj1 (cut_records_newest_commit batch (Day 19805)
                   (mkOptions None None) (mkWorld None []) _ _ _)).
  lazy; reflexivity.
Defined.

(** C8, as the specification words it, fails: a cut from two commits
    records the hash of the second, newer one, not of the oldest. *)
Lemma cut_of_two_commits_records_the_second :
  let oldest :=
    CommitInfo.make "a3f9c21" (Day 19800) "fix(sync) - retry"
      "fix(sync) - retry" None None in
  let newest :=
    CommitInfo.make "d84e7b6" (Day 19802) "feat(ui) - dark mode"
      "feat(ui) - dark mode" None None in
  exists v w',
    analyzeAndVersion [oldest; newest] (Day 19805) (mkOptions None None)
      (mkWorld None []) = (Ok (Versioned v), w')
    /\ Version.commit_hash v = "d84e7b6"
    /\ Version.commit_hash v <> CommitInfo.hash oldest.
Proof.
  do 2 eexists. split; [lazy; reflexivity|].
  split; [reflexivity|discriminate].
Qed.

(** ** The stable request at the entry point *)

(** The entry point never hands an empty prefix to [analyzeAndVersion]. *)
Lemma cli_drops_empty_prefix (args : list string) (options : Options) :
  cli args = RunAnalyze options -> prefix options <> Some "".
Proof.
  unfold cli.
  set (t := match indexOf String.eqb args "--type" with
            | Some i => argAfter args i
            | None => None
            end).
  set (p := match indexOf String.eqb args "--prefix" with
            | Some i => Some (match argAfter args i with
                              | Some x => x
                              | None => ""
                              end)
            | None => None
            end).
  assert (E : match p with
              | Some q => if q =? "" then None else Some q
              | None => None
              end <> Some "").
  { destruct p as [q|]; [|discriminate].
    destruct (String.eqb_spec q ""); congruence. }
  destruct t as [ty|]; cbn [option_map];
    [destruct (versionTypeOf ty); [|discriminate]|];
    repeat match goal with
           | |- context [if ?b then _ else _] => destruct b; try discriminate
           end;
    intros H; injection H as <-; exact E.
Qed.

(** C6 at its failing input: with [--type minor --prefix ''] on
    alpha-1.2.0 the entry point turns the empty prefix into no override,
    and the cut is alpha-1.3.0, not 1.3.0.  [incrementVersion] itself
    gives 1.3.0 when it gets the empty prefix, and keeps alpha without
    an override. *)
Theorem stable_request_keeps_alpha :
  cli ["--type"; "minor"; "--prefix"; ""]
  = RunAnalyze (mkOptions (Some minor) None)
  /\ (exists v w',
        analyzeAndVersion
          [CommitInfo.make "5b0c8aa" (Day 19800) "fix(sync) - retry"
             "fix(sync) - retry" None None]
          (Day 19805) (mkOptions (Some minor) None)
          (mkWorld (Some (ChangelogData.make "alpha-1.2.0" [])) [])
        = (Ok (Versioned v), w')
        /\ Version.version v = "alpha-1.3.0"
        /\ Version.prefix v = Some "alpha")
  /\ incrementVersion "alpha-1.2.0" patch (Some "") (Some minor)
     = Some "1.3.0"
  /\ incrementVersion "alpha-1.2.0" patch None (Some minor)
     = Some "alpha-1.3.0".
Proof.
  split; [reflexivity|]. split; [|split; reflexivity].
  do 2 eexists. split; [lazy; reflexivity|]. split; reflexivity.
Qed.

(** ** Grouping of the history *)

Section Grouping.

Local Open Scope Z_scope.

Lemma daysDifference_days (a d : Z) :
  daysDifference (Day a) (Day d) = Some (Z.abs (d - a)).
Proof.
  unfold daysDifference, getTime.
  replace (d * 86400000 - a * 86400000) with ((d - a) * 86400000) by lia.
  change (1000 * 60 * 60 * 24) with 86400000.
  now rewrite Z.div_mul.
Qed.

Lemma groupStep_first (st : GroupState) (c : CommitInfo.t) :
  currentDate st = NoDate ->
  groupStep st c = mkGroupState (pushGroup st) [c] (CommitInfo.date c).
Proof.
  intros E. unfold groupStep, startsNewGroup. now rewrite E.
Qed.

Lemma groupStep_full (st : GroupState) (c : CommitInfo.t) :
  (10 <= List.length (currentGroup st))%nat ->
  groupStep st c = mkGroupState (pushGroup st) [c] (CommitInfo.date c).
Proof.
  intros L. unfold groupStep, startsNewGroup.
  apply Nat.leb_le in L. rewrite L. now rewrite !orb_true_r.
Qed.

Lemma groupStep_gap (st : GroupState) (c : CommitInfo.t) (a d : Z) :
  currentDate st = Day a -> CommitInfo.date c = Day d ->
  7 < Z.abs (d - a) ->
  groupStep st c = mkGroupState (pushGroup st) [c] (CommitInfo.date c).
Proof.
  intros Ea Ed G. unfold groupStep, startsNewGroup.
  rewrite Ea, Ed, daysDifference_days. cbn [dateSet negb orb greaterThan].
  apply Z.ltb_lt in G. now rewrite G.
Qed.

Lemma groupStep_join (st : GroupState) (c : CommitInfo.t) (a d : Z) :
  currentDate st = Day a -> CommitInfo.date c = Day d ->
  Z.abs (d - a) <= 7 ->
  (List.length (currentGroup st) < 10)%nat ->
  groupStep st c
  = mkGroupState (groups st) (currentGroup st ++ [c]) (currentDate st).
Proof.
  intros Ea Ed G L. unfold groupStep, startsNewGroup.
  rewrite Ea, Ed, daysDifference_days. cbn [dateSet negb orb greaterThan].
  apply Z.ltb_ge in G. rewrite G.
  apply Nat.leb_gt in L. now rewrite L.
Qed.

(** After the first commit, the running group is not empty and the
    current date is the date of its first commit. *)
Lemma running_group_anchor (before : list CommitInfo.t) :
  Forall dated before ->
  before <> [] ->
  exists first rest,
    currentGroup (fold_left groupStep before noGroups) = first :: rest
    /\ currentDate (fold_left groupStep before noGroups)
       = CommitInfo.date first
    /\ dated first.
Proof.
  induction before as [|c l IH] using rev_ind; [congruence|].
  intros F _. apply Forall_app in F as [Fl Fc].
  apply Forall_inv in Fc.
  rewrite fold_left_app. cbn [fold_left].
  set (st := fold_left groupStep l noGroups) in *.
  replace (groupStep st c)
    with (if startsNewGroup st c
          then mkGroupState (pushGroup st) [c] (CommitInfo.date c)
          else mkGroupState (groups st) (currentGroup st ++ [c])
                            (currentDate st)) by reflexivity.
  destruct (startsNewGroup st c) eqn:S.
  - exists c, []. repeat split; assumption.
  - destruct l as [|x l'].
    + discriminate S.
    + destruct (IH Fl ltac:(discriminate)) as (first & rest & E1 & E2 & D).
      exists first, (rest ++ [c])%list.
      cbn [currentGroup currentDate]. rewrite E1.
      repeat split; assumption.
Qed.

(** The rule of the loop: at a commit, the running group is left for a
    new one exactly when the commit is the first, when the gap to the
    anchor exceeds seven days, or when the group holds ten commits. *)
Lemma new_group_rule (before : list CommitInfo.t) (c : CommitInfo.t) :
  Forall dated before -> dated c ->
  let st := fold_left groupStep before noGroups in
  currentGroup (groupStep st c) = [c] <->
  before = [] \/ gapExceeded (currentGroup st) c
  \/ (10 <= List.length (currentGroup st))%nat.
Proof.
  intros F [d Ed] st.
  destruct before as [|b l].
  - split; [auto|intros _; reflexivity].
  - destruct (running_group_anchor (b :: l) F ltac:(discriminate))
      as (first & rest & E1 & E2 & [a Ea]).
    fold st in E1, E2. rewrite Ea in E2.
    destruct (Nat.le_gt_cases 10 (List.length (currentGroup st))) as [L|L].
    { rewrite (groupStep_full st c L). split; auto. }
    destruct (Z.lt_ge_cases 7 (Z.abs (d - a))) as [G|G].
    { rewrite (groupStep_gap st c a d E2 Ed G). split; [|reflexivity].
      intros _. right. left. now exists first, rest, a, d. }
    rewrite (groupStep_join st c a d E2 Ed G L). cbn [currentGroup].
    rewrite E1 in *. split.
    + intros H. destruct rest; discriminate H.
    + intros [H|[H|H]].
      * discriminate H.
      * destruct H as (f' & r' & a' & d' & Hf & Ha & Hd & Hg).
        injection Hf as <- <-.
        rewrite Ea in Ha. rewrite Ed in Hd.
        injection Ha as <-. injection Hd as <-. lia.
      * lia.
Qed.

End Grouping.

(** Names the day of every commit in the context, from a hypothesis
    on the members of the list they were taken from. *)
Ltac date_each Hspan :=
  repeat match goal with
         | c : CommitInfo.t |- _ =>
             lazymatch goal with
             | _ : CommitInfo.date c = Day _ |- _ => fail
             | _ =>
                 let d := fresh "d" in
                 let E := fresh "E" in
                 destruct (Hspan c ltac:(simpl; tauto)) as (d & E & ?)
             end
         end;
  clear Hspan.

(** Runs the loop of [groupCommitsIntoVersions] from the innermost step
    outwards, deciding each step by the size of the running group and by
    the days of the commit and of the anchor. *)
Ltac walk_groups :=
  repeat match goal with
         | Ec : CommitInfo.date ?c = Day ?d |- context [groupStep ?st ?c] =>
             lazymatch st with
             | context [groupStep] => fail
             | _ =>
                 first
                   [ rewrite (groupStep_full st c) by (simpl; lia)
                   | match goal with
                     | Ea : CommitInfo.date ?f = Day ?a |- _ =>
                         first
                           [ rewrite (groupStep_join st c a d)
                               by (simpl; try assumption; lia)
                           | rewrite (groupStep_gap st c a d)
                               by (simpl; try assumption; lia) ]
                     end ]
             end
         end.

Section Boundary.

Local Open Scope Z_scope.

(** Twelve commits within three days and a thirteenth at least ten days
    after each of them: the first ten fill a group, the next two make a
    second one, and the last commit is alone in a third. *)
Lemma twelve_then_one (early : list CommitInfo.t) (late : CommitInfo.t)
    (d0 dl : Z) :
  List.length early = 12%nat ->
  (forall c, In c early ->
             exists d, CommitInfo.date c = Day d
                       /\ d0 <= d <= d0 + 3 /\ d + 10 <= dl) ->
  CommitInfo.date late = Day dl ->
  map Group.commits (groupCommitsIntoVersions (early ++ [late]))
  = [[late]; skipn 10 early; firstn 10 early].
Proof.
  intros Hlen Hspan Hlate.
  do 12 (destruct early as [|? early]; [discriminate Hlen|]).
  destruct early; [clear Hlen|discriminate Hlen].
  date_each Hspan.
  unfold groupCommitsIntoVersions.
  cbn [app fold_left].
  rewrite (groupStep_first noGroups) by reflexivity.
  walk_groups.
  reflexivity.
Qed.

End Boundary.

Section Partition.

Lemma flat_map_pushGroup (st : GroupState) :
  flat_map Group.commits (pushGroup st)
  = (flat_map Group.commits (groups st) ++ currentGroup st)%list.
Proof.
  unfold pushGroup.
  destruct (currentGroup st) as [|c l] eqn:E; cbn [List.length Nat.ltb Nat.leb].
  - now rewrite app_nil_r.
  - rewrite flat_map_app. simpl. rewrite E. now rewrite app_nil_r.
Qed.

Lemma grouping_keeps_order (commits : list CommitInfo.t) :
  flat_map Group.commits (pushGroup (fold_left groupStep commits noGroups))
  = commits.
Proof.
  induction commits as [|c l IH] using rev_ind; [reflexivity|].
  rewrite fold_left_app. cbn [fold_left].
  set (st := fold_left groupStep l noGroups) in *.
  rewrite flat_map_pushGroup in *.
  unfold groupStep. destruct (startsNewGroup st c); cbn [groups currentGroup].
  - now rewrite flat_map_pushGroup, IH.
  - now rewrite app_assoc, IH.
Qed.

(** The groups, oldest first, are the history cut into consecutive runs. *)
Lemma groups_partition_history (commits : list CommitInfo.t) :
  flat_map Group.commits (rev (groupCommitsIntoVersions commits)) = commits.
Proof.
  unfold groupCommitsIntoVersions.
  rewrite rev_involutive. apply grouping_keeps_order.
Qed.

End Partition.

Section NearBoundary.

Local Open Scope Z_scope.

(** The same twelve commits and a thirteenth within seven days of the
    eleventh: the thirteenth joins the second group. *)
Lemma twelve_then_one_near (early : list CommitInfo.t) (late : CommitInfo.t)
    (d0 dl : Z) :
  List.length early = 12%nat ->
  (forall c, In c early ->
             exists d, CommitInfo.date c = Day d /\ d0 <= d <= d0 + 3) ->
  CommitInfo.date late = Day dl ->
  (forall c a, nth_error early 10 = Some c -> CommitInfo.date c = Day a ->
               Z.abs (dl - a) <= 7) ->
  map Group.commits (groupCommitsIntoVersions (early ++ [late]))
  = [(skipn 10 early ++ [late])%list; firstn 10 early].
Proof.
  intros Hlen Hspan Hlate Hnear.
  do 12 (destruct early as [|? early]; [discriminate Hlen|]).
  destruct early; [clear Hlen|discriminate Hlen].
  date_each Hspan.
  match goal with
  | E : CommitInfo.date ?c = Day ?a |- _ =>
      pose proof (Hnear c a eq_refl E); clear Hnear
  end.
  unfold groupCommitsIntoVersions.
  cbn [app fold_left].
  rewrite (groupStep_first noGroups) by reflexivity.
  walk_groups.
  reflexivity.
Qed.

End NearBoundary.

(** C9, as the code has it.  Walking a dated history, a commit opens a
    new group exactly when it is the first commit, or its date is more
    than seven days from the date of the first commit of the running
    group, or the running group holds ten commits.  So twelve commits
    within three days and a thirteenth at least ten days after each of
    them make three groups, of ten, two and one commits, listed newest
    first; the thirteenth joins the second group, and the groups are
    two, only when it is within seven days of the eleventh commit. *)
Theorem grouping_rule_and_boundary :
  (forall (before : list CommitInfo.t) (c : CommitInfo.t),
     Forall dated before -> dated c ->
     let st := fold_left groupStep before noGroups in
     currentGroup (groupStep st c) = [c] <->
     before = [] \/ gapExceeded (currentGroup st) c
     \/ 10 <= List.length (currentGroup st))
  /\ (forall (early : list CommitInfo.t) (late : CommitInfo.t) (d0 dl : Z),
        List.length early = 12 ->
        (forall c, In c early ->
                   exists d, CommitInfo.date c = Day d
                             /\ (d0 <= d <= d0 + 3)%Z /\ (d + 10 <= dl)%Z) ->
        CommitInfo.date late = Day dl ->
        map Group.commits (groupCommitsIntoVersions (early ++ [late]))
        = [[late]; skipn 10 early; firstn 10 early])
  /\ (forall (early : list CommitInfo.t) (late : CommitInfo.t) (d0 dl : Z),
        List.length early = 12 ->
        (forall c, In c early ->
                   exists d, CommitInfo.date c = Day d
                             /\ (d0 <= d <= d0 + 3)%Z) ->
        CommitInfo.date late = Day dl ->
        (forall c a, nth_error early 10 = Some c ->
                     CommitInfo.date c = Day a -> (Z.abs (dl - a) <= 7)%Z) ->
        map Group.commits (groupCommitsIntoVersions (early ++ [late]))
        = [(skipn 10 early ++ [late])%list; firstn 10 early]).
Proof.
  split; [exact new_group_rule|].
  split; [exact twelve_then_one|exact twelve_then_one_near].
Qed.

Lemma grouping_rule_and_boundary_witness :
  let early :=
    historyOn [19800; 19800; 19800; 19800; 19801; 19801; 19801; 19801;
               19802; 19802; 19802; 19803]%Z in
  let late := CommitInfo.make "e5d1f60" (Day 19813) "fix(sync) - retry"
                "fix(sync) - retry" None None in
  map Group.commits (groupCommitsIntoVersions (early ++ [late]))
  = [[late]; skipn 10 early; firstn 10 early].
Proof.
  intros early late.
  refine (proj1 (proj2 grouping_rule_and_boundary) early late
            19800%Z 19813%Z _ _ _).
  - reflexivity.
  - intros c H. simpl in H.
    repeat (destruct H as [<-|H];
            [eexists; split; [reflexivity|lia]|]).
    destruct H.
  - reflexivity.
Defined.

(** C9, as the specification words it, fails: twelve commits over three
    days and one commit ten days later are grouped in three groups, when
    the ten days count from the twelfth commit and when they count from
    the first. *)
Lemma twelve_and_one_make_three_groups :
  let early :=
    [19800; 19800; 19800; 19800; 19801; 19801; 19801; 19801;
     19802; 19802; 19802; 19803]%Z in
  List.length (groupCommitsIntoVersions
                 (historyOn (early ++ [19813]%Z))) = 3
  /\ List.length (groupCommitsIntoVersions
                    (historyOn (early ++ [19810]%Z))) = 3.
Proof. split; reflexivity. Qed.

(** * Further properties of the code *)

(** ** Sections of a commit message *)

Section CommitMessage.

Lemma length_append (a b : string) :
  String.length (a ++ b) = String.length a + String.length b.
Proof. induction a; simpl; congruence. Qed.

(** Of two ways to cut a string, the shorter tail ends the longer. *)
Lemma shorter_tail (x y u v : string) :
  x ++ y = u ++ v -> String.length v <= String.length y ->
  exists d, y = d ++ v.
Proof.
  revert u. induction x as [|c x IH]; intros u E L.
  - now exists u.
  - destruct u as [|c' u].
    + simpl in E. subst v. simpl in L. rewrite length_append in L. lia.
    + simpl in E. injection E as _ E. now apply IH with u.
Qed.

Lemma dropPrefix_append (p r : string) : dropPrefix p (p ++ r) = Some r.
Proof.
  induction p as [|a p IH]; simpl.
  - now destruct r.
  - now rewrite Ascii.eqb_refl.
Qed.

Lemma cutAt_eq (tag s : string) :
  cutAt tag s
  = match dropPrefix tag s with
    | Some rest => Some ("", rest)
    | None =>
        match s with
        | EmptyString => None
        | String c s' =>
            match cutAt tag s' with
            | Some (before, after) => Some (String c before, after)
            | None => None
            end
        end
    end.
Proof. now destruct s. Qed.

Lemma cutAt_sound (tag s before after : string) :
  cutAt tag s = Some (before, after) -> s = before ++ tag ++ after.
Proof.
  revert before. induction s as [|c s IH]; intros before;
    rewrite cutAt_eq;
    destruct (dropPrefix tag _) as [rest|] eqn:E;
    try (intros H; injection H as <- <-; now apply dropPrefix_Some in E);
    try discriminate.
  destruct (cutAt tag s) as [[b a]|]; [|discriminate].
  intros H. injection H as <- <-. simpl. f_equal. now apply IH.
Qed.

(** The tail after the first occurrence holds the tail after any other. *)
Lemma cutAt_widest (tag s before after : string) :
  cutAt tag s = Some (before, after) ->
  forall before' after', s = before' ++ tag ++ after' ->
  exists d, after = d ++ after'.
Proof.
  revert before. induction s as [|c s IH]; intros before H b' a' E;
    rewrite cutAt_eq in H;
    destruct (dropPrefix tag _) as [rest|] eqn:D.
  - injection H as _ <-. apply dropPrefix_Some in D.
    apply shorter_tail with (x := tag) (u := b' ++ tag).
    + now rewrite append_assoc, <- E.
    + apply (f_equal String.length) in D. rewrite E in D.
      rewrite !length_append in D. lia.
  - discriminate H.
  - injection H as _ <-. apply dropPrefix_Some in D.
    apply shorter_tail with (x := tag) (u := b' ++ tag).
    + now rewrite append_assoc, <- E.
    + apply (f_equal String.length) in D. rewrite E in D.
      rewrite !length_append in D. lia.
  - destruct b' as [|c' b'].
    + simpl in E. rewrite E, dropPrefix_append in D. discriminate D.
    + simpl in E. injection E as _ E.
      destruct (cutAt tag s) as [[b a]|] eqn:C; [|discriminate H].
      injection H as _ <-. now apply (IH b eq_refl b' a').
Qed.

Lemma cutAt_complete (tag s : string) :
  contains s tag -> cutAt tag s <> None.
Proof.
  intros (b & a & ->). induction b as [|c b IH].
  - rewrite cutAt_eq. cbn [append]. rewrite dropPrefix_append. discriminate.
  - rewrite cutAt_eq. cbn [append].
    destruct (dropPrefix tag (String c (b ++ tag ++ a))); [discriminate|].
    destruct (cutAt tag (b ++ tag ++ a)) as [[? ?]|]; [discriminate|].
    now contradiction IH.
Qed.

(** No occurrence of the tag lies before the first one. *)
Lemma cutAt_clean (tag s before after : string) :
  tag <> "" ->
  cutAt tag s = Some (before, after) -> ~ contains before tag.
Proof.
  intros Htag.
  revert before. induction s as [|c s IH]; intros before H;
    rewrite cutAt_eq in H;
    destruct (dropPrefix tag _) as [rest|] eqn:D;
    try (injection H as <- _; intros (b & a & E);
         destruct b; [destruct tag; [congruence|discriminate E]
                     |discriminate E]);
    try discriminate H.
  destruct (cutAt tag s) as [[b0 a0]|] eqn:C; [|discriminate H].
  injection H as <- <-.
  intros (b & a & E). destruct b as [|c' b].
  - simpl in E. apply cutAt_sound in C. subst s.
    change (String c (b0 ++ tag ++ a0))
      with (String c b0 ++ tag ++ a0) in D.
    rewrite E, append_assoc, dropPrefix_append in D.
    discriminate D.
  - simpl in E. injection E as _ E.
    apply (IH b0 eq_refl). now exists b, a.
Qed.

Lemma matchSection_delimits (opening closing message : string) :
  opening <> "" -> closing <> "" ->
  delimited opening closing message
            (option_map JS.trim (matchSection opening closing message)).
Proof.
  intros Ho Hc. unfold matchSection, delimited.
  destruct (cutAt opening message) as [[b rest]|] eqn:O.
  - destruct (cutAt closing rest) as [[raw a]|] eqn:C; cbn [option_map].
    + exists b, raw, a.
      apply cutAt_sound in O as Em. apply cutAt_sound in C as Er.
      repeat split.
      * now rewrite Em, Er.
      * now apply cutAt_clean in O.
      * now apply cutAt_clean in C.
    + intros (b' & raw & a & E).
      destruct (cutAt_widest _ _ _ _ O b' (raw ++ closing ++ a) E)
        as [d Hd].
      apply (cutAt_complete closing rest); [|exact C].
      exists (d ++ raw), a. now rewrite Hd, append_assoc.
  - cbn [option_map]. intros (b' & raw & a & E).
    apply (cutAt_complete opening message); [|exact O].
    now exists b', (raw ++ closing ++ a).
Qed.

End CommitMessage.

(** X1: [parseCommitMessage] returns, for each pair of tags, the trimmed
    text between the first opening tag and the first closing tag after
    it; a section is absent exactly when the message has no opening tag
    with a closing tag after it, and nothing is raised for a tag that is
    not closed. *)
Theorem parseCommitMessage_delimits (message : string) :
  delimited "<technical>" "</technical>" message
            (fst (parseCommitMessage message))
  /\ delimited "<changelog>" "</changelog>" message
               (snd (parseCommitMessage message)).
Proof.
  split; apply matchSection_delimits; discriminate.
Qed.

(** ** Entries of a changelog section *)

Section Bullets.

Variable changelog : string.

(** The line is one that the loop takes for a bullet. *)
Let bullet (line : string) : Prop :=
  In line (changelogLines changelog)
  /\ JS.startsWith line "##" = false
  /\ JS.startsWith line "-" = true.

Let listed (items : list string) : Prop :=
  forall x, In x items -> exists line, bullet line /\ x = stripMarker "-" line.

Let made (acc : list ChangelogEntry.t) : Prop :=
  forall e, In e acc ->
            exists line,
              bullet line
              /\ ChangelogEntry.description e = stripMarker "-" line
              /\ ChangelogEntry.title e
                 = entryTitle (ChangelogEntry.description e).

Let kept (st : SectionState) : Prop :=
  made (entries st) /\ listed (currentEntries st).

Lemma flushSection_made (st : SectionState) :
  kept st -> made (flushSection st).
Proof.
  intros [A B]. unfold flushSection.
  destruct (JS.truthy (currentSection st)
            && (0 <? List.length (currentEntries st))%nat); [|exact A].
  intros e H. apply in_app_or in H as [H|H]; [now apply A|].
  unfold processSectionEntries in H.
  apply in_map_iff in H as (x & <- & Hx).
  destruct (B x Hx) as (line & Hl & ->).
  now exists line.
Qed.

Lemma sectionStep_kept (st : SectionState) (line : string) :
  In line (changelogLines changelog) -> kept st -> kept (sectionStep st line).
Proof.
  intros Hin K. unfold sectionStep.
  destruct (JS.startsWith line "##") eqn:H2.
  - split; cbn [entries currentEntries].
    + now apply flushSection_made.
    + intros x [].
  - destruct (JS.startsWith line "-") eqn:H1; [|exact K].
    destruct K as [A B]. split; cbn [entries currentEntries]; [exact A|].
    intros x H. apply in_app_or in H as [H|[<-|[]]]; [now apply B|].
    exists line. repeat split; assumption.
Qed.

Lemma fold_sectionStep_kept (ls : list string) (st : SectionState) :
  (forall line, In line ls -> In line (changelogLines changelog)) ->
  kept st -> kept (fold_left sectionStep ls st).
Proof.
  revert st. induction ls as [|l ls IH]; intros st Hls K; [exact K|].
  simpl. apply IH.
  - intros line H. apply Hls. now right.
  - apply sectionStep_kept; [|assumption]. apply Hls. now left.
Qed.

(** Every entry parsed from a changelog is made of one of its bullet
    lines. *)
Lemma parsed_entry_bullet (e : ChangelogEntry.t) :
  In e (parseChangelogSection changelog) ->
  exists line,
    In line (changelogLines changelog)
    /\ JS.startsWith line "##" = false
    /\ JS.startsWith line "-" = true
    /\ ChangelogEntry.description e = stripMarker "-" line
    /\ ChangelogEntry.title e = entryTitle (ChangelogEntry.description e).
Proof.
  unfold parseChangelogSection.
  destruct (JS.truthy changelog); cbn [negb]; [|intros []].
  intros H.
  assert (K : kept (fold_left sectionStep (changelogLines changelog)
                      (mkSectionState [] "" []))).
  { apply fold_sectionStep_kept; [auto|].
    split; intros x []. }
  destruct (flushSection_made _ K e H) as (line & (H1 & H2 & H3) & H4 & H5).
  now exists line.
Qed.

End Bullets.



Section EmptySections.

Lemma fold_without_headings (ls : list string) (st : SectionState) :
  (forall line, In line ls -> JS.startsWith line "##" = false) ->
  entries st = [] -> currentSection st = "" ->
  entries (fold_left sectionStep ls st) = []
  /\ currentSection (fold_left sectionStep ls st) = "".
Proof.
  revert st. induction ls as [|l ls IH]; intros st H E C; [now split|].
  simpl. apply IH.
  - intros line Hl. apply H. now right.
  - unfold sectionStep. rewrite (H l (or_introl eq_refl)).
    now destruct (JS.startsWith l "-").
  - unfold sectionStep. rewrite (H l (or_introl eq_refl)).
    now destruct (JS.startsWith l "-").
Qed.

Lemma no_headings_no_entries (changelog : string) :
  (forall line, In line (changelogLines changelog) ->
                JS.startsWith line "##" = false) ->
  parseChangelogSection changelog = [].
Proof.
  intros H. unfold parseChangelogSection.
  destruct (JS.truthy changelog); [|reflexivity]. cbn [negb].
  destruct (fold_without_headings (changelogLines changelog)
              (mkSectionState [] "" []) H eq_refl eq_refl) as [E C].
  unfold flushSection. now rewrite C, E.
Qed.

Lemma no_bullets_no_entries (changelog : string) :
  (forall line, In line (changelogLines changelog) ->
                JS.startsWith line "-" = false) ->
  parseChangelogSection changelog = [].
Proof.
  intros H.
  destruct (parseChangelogSection changelog) as [|e l] eqn:E; [reflexivity|].
  destruct (parsed_entry_bullet changelog e) as (line & Hl & _ & Hb & _).
  - rewrite E. now left.
  - rewrite (H line Hl) in Hb. discriminate Hb.
Qed.

End EmptySections.

(** X3: a commit whose changelog section is not empty but has no line
    starting with a hyphen, or no line starting with "##", contributes no
    entry at all to a version: the section yields none, and the entry
    made from the commit title is only for commits without a section. *)
Theorem section_without_bullets_gives_no_entry
    (c : CommitInfo.t) (section : string) :
  CommitInfo.changelog_section c = Some section ->
  section <> "" ->
  (forall line, In line (changelogLines section) ->
                JS.startsWith line "-" = false)
  \/ (forall line, In line (changelogLines section) ->
                   JS.startsWith line "##" = false) ->
  commitChanges c = [].
Proof.
  intros Hs Hne H. unfold commitChanges. rewrite Hs.
  apply truthy_nonempty in Hne. rewrite Hne.
  destruct H as [H|H].
  - now apply no_bullets_no_entries.
  - now apply no_headings_no_entries.
Qed.

Lemma section_without_bullets_gives_no_entry_witness :
  commitChanges
    (CommitInfo.make "0c4d2e9" (Day 19800)
       "feat(ui): implementa selector de fechas"
       "feat(ui): implementa selector de fechas" None
       (Some ("## [New] ✨" ++ JS.LF
              ++ "Nuevo selector de fechas con modo de rango")))
  = [].
Proof.
  apply section_without_bullets_gives_no_entry
    with (section := "## [New] ✨" ++ JS.LF
                     ++ "Nuevo selector de fechas con modo de rango").
  - reflexivity.
  - discriminate.
  - left. intros line H. simpl in H.
    destruct H as [<-|[<-|[]]]; reflexivity.
Defined.

(** ** The title of an entry *)

Section EntryTitle.

Lemma split_not_nil (sep : ascii) (s : string) : JS.split sep s <> [].
Proof.
  destruct s as [|c s]; simpl; [discriminate|].
  destruct (Ascii.eqb c sep); [discriminate|].
  destruct (JS.split sep s); discriminate.
Qed.

(** The first piece has no separator in it, and is the whole string or
    is followed by a separator. *)
Lemma split_first_piece (sep : ascii) (s w : string) (ws : list string) :
  JS.split sep s = w :: ws ->
  allChars (fun c => negb (Ascii.eqb c sep)) w = true
  /\ (ws = [] -> s = w)
  /\ (ws <> [] -> exists rest, s = w ++ String sep rest).
Proof.
  revert w ws. induction s as [|c s IH]; intros w ws; simpl.
  - intros H. injection H as <- <-. repeat split; congruence.
  - destruct (Ascii.eqb_spec c sep) as [->|Hc].
    + intros H. injection H as <- <-. repeat split.
      * intros E. now apply split_not_nil in E.
      * intros _. now exists s.
    + destruct (JS.split sep s) as [|w' ws'] eqn:E;
        [now apply split_not_nil in E|].
      intros H. injection H as <- <-.
      destruct (IH w' ws' eq_refl) as (A & B & C).
      repeat split.
      * simpl. rewrite A.
        destruct (Ascii.eqb_spec c sep); [contradiction|reflexivity].
      * intros ->. now rewrite (B eq_refl).
      * intros Hne. destruct (C Hne) as [rest ->]. now exists rest.
Qed.

Lemma allChars_no_occurrence (sep : ascii) (w : string) :
  allChars (fun c => negb (Ascii.eqb c sep)) w = true ->
  ~ contains w (String sep "").
Proof.
  intros H (b & a & E). subst w.
  rewrite allChars_app in H. apply andb_prop in H as [_ H].
  simpl in H. now rewrite Ascii.eqb_refl in H.
Qed.

End EntryTitle.

(** X4: the title of an entry is the text before its first period: an
    entry without a period, or one that starts with a period, is its own
    title; any other entry is its title, which is not empty and has no
    period, a period and the rest. *)
Theorem entryTitle_is_text_before_period (entry : string) :
  (entryTitle entry = entry
   /\ (~ contains entry "." \/ exists rest, entry = "." ++ rest))
  \/ (exists rest,
        entry = entryTitle entry ++ "." ++ rest
        /\ entryTitle entry <> ""
        /\ ~ contains (entryTitle entry) ".").
Proof.
  unfold entryTitle.
  destruct (JS.split "." entry) as [|w ws] eqn:E;
    [now apply split_not_nil in E|].
  destruct (split_first_piece "." entry w ws E) as (A & B & C).
  destruct ws as [|w2 ws].
  - rewrite (B eq_refl) in *. left.
    destruct (JS.truthy w); (split; [reflexivity|]); left;
      now apply allChars_no_occurrence.
  - destruct (C ltac:(discriminate)) as [rest Hr].
    destruct (JS.truthy w) eqn:T.
    + right. exists rest. repeat split.
      * exact Hr.
      * now apply truthy_nonempty.
      * now apply allChars_no_occurrence.
    + left. split; [reflexivity|]. right.
      assert (w = "").
      { destruct (String.eqb_spec w ""); [assumption|].
        apply truthy_nonempty in n. congruence. }
      subst w. now exists rest.
Qed.

(** ** Prefix transitions *)

Section Transitions.

Lemma parse_recognized (version : string) :
  recognized (fst (parseVersionString version)).
Proof.
  unfold parseVersionString, versionMatch.
  destruct (JS.hasLineTerminator version); [exact I|].
  destruct version as [|c s]; [exact I|].
  pose proof (matchTokens_split prefixTokens (String c s)) as M.
  destruct (matchTokens prefixTokens (String c s)) as [[t|] r];
    cbn [option_map fst]; [|exact I].
  destruct M as (Hin & _).
  simpl in Hin. simpl.
  destruct Hin as [<-|[<-|[<-|[<-|[]]]]]; simpl; auto.
Qed.


(** The outcome of the check for a valid target. *)
Lemma validatePrefixTransition_valid (current target : string) (w : World) :
  In target validPrefixes ->
  validatePrefixTransition current (Some target) w
  = (Ok tt,
     mkWorld (changelog_json w)
       (warnings w
        ++ (if (maturity (Some target)
                <? maturity (fst (parseVersionString current)))%nat
            then ["⚠️ Advertencia: Transición de prefijo regresiva "
                    ++ orStable (fst (parseVersionString current))
                    ++ " → " ++ target;
                  "   Esto podría confundir a los usuarios sobre el estado de estabilidad."]
            else []))).
Proof.
  intros Ht.
  pose proof (parse_recognized current) as R.
  unfold validatePrefixTransition.
  set (from := fst (parseVersionString current)) in *.
  destruct w as [cj ws].
  destruct from as [p|]; simpl in R, Ht;
    [destruct R as [<-|[<-|[<-|[<-|[]]]]]|];
    destruct Ht as [<-|[<-|[<-|[<-|[]]]]];
    lazy -[app]; rewrite ?app_nil_r, <- ?app_assoc; reflexivity.
Qed.

End Transitions.

(** X5: for a target among pre-alpha, alpha, beta and rc,
    [validatePrefixTransition] never throws and never touches the stored
    changelog; it adds its two warning lines exactly when the target is
    less mature than the prefix of the current version (a version without
    prefix counting as stable), and nothing otherwise. *)
Theorem valid_transition_warns_on_regression
    (current target : string) (w : World) :
  In target validPrefixes ->
  let from := fst (parseVersionString current) in
  validatePrefixTransition current (Some target) w
  = (Ok tt,
     mkWorld (changelog_json w)
       (warnings w
        ++ (if (maturity (Some target) <? maturity from)%nat
            then ["⚠️ Advertencia: Transición de prefijo regresiva "
                    ++ orStable from ++ " → " ++ target;
                  "   Esto podría confundir a los usuarios sobre el estado de estabilidad."]
            else []))).
Proof.
  intros Ht from. unfold from.
  now apply validatePrefixTransition_valid.
Qed.

Lemma valid_transition_warns_on_regression_witness :
  validatePrefixTransition "beta-2.1.0" (Some "alpha") (mkWorld None [])
  = (Ok tt,
     mkWorld None
       ["⚠️ Advertencia: Transición de prefijo regresiva beta → alpha";
        "   Esto podría confundir a los usuarios sobre el estado de estabilidad."]).
Proof.
  refine (valid_transition_warns_on_regression "beta-2.1.0" "alpha"
            (mkWorld None []) _).
  simpl. auto.
Defined.

(** ** What a version cut writes *)

Section CutEffects.

Lemma loadChangelogData_eq (w : World) :
  loadChangelogData w = (Ok (storedHistory w), w).
Proof.
  unfold loadChangelogData, storedHistory.
  now destruct (changelog_json w).
Qed.

(** The steps of a cut that ends with a version: the prefix check
    passed, leaving a world [w1]; the increment gave the version; the
    entry is built from the batch and written before the stored ones. *)
Lemma cut_steps (newCommits : list CommitInfo.t) (today : DateString)
    (options : Options) (w w' : World) (v : Version.t) :
  analyzeAndVersion newCommits today options w = (Ok (Versioned v), w') ->
  exists w1 older newest,
    match prefix options with
    | Some p =>
        validatePrefixTransition
          (ChangelogData.current_version (storedHistory w)) (Some p) w
    | None => ret tt w
    end = (Ok tt, w1)
    /\ newCommits = (older ++ [newest])%list
    /\ incrementVersion (ChangelogData.current_version (storedHistory w))
         (determineVersionType newCommits) (prefix options)
         (Some match type options with
               | Some t => t
               | None => determineVersionType newCommits
               end)
       = Some (Version.version v)
    /\ Version.date v = today
    /\ Version.commit_hash v = CommitInfo.hash newest
    /\ Version.changes v = collectChanges newCommits
    /\ w' = mkWorld
              (Some (ChangelogData.make (Version.version v)
                       (v :: ChangelogData.versions (storedHistory w))))
              (warnings w1).
Proof.
  unfold analyzeAndVersion, bind. rewrite loadChangelogData_eq.
  destruct (List.length newCommits =? 0)%nat; [discriminate|].
  destruct ((match prefix options with
             | Some p =>
                 validatePrefixTransition
                   (ChangelogData.current_version (storedHistory w)) (Some p)
             | None => ret tt
             end) w) as [[[]|e|] w1] eqn:V; try discriminate.
  unfold represented.
  destruct (incrementVersion _ _ _ _) as [newVersion|] eqn:I;
    [|discriminate].
  destruct (lastCommit newCommits w1) as [[c|e|] w2] eqn:L; try discriminate.
  apply lastCommit_Ok in L as (-> & older & L).
  unfold writeChangelog, ret. intros H. injection H as <- <-.
  exists w1, older, c. cbn [Version.version Version.date Version.commit_hash
                             Version.changes].
  repeat split; try assumption.
  now destruct (prefix options).
Qed.

End CutEffects.



(** ** Cuts on a well-formed version *)

Section WellFormedCut.

Variables (pre : option string) (M N P : N).

Hypothesis pre_recognized : recognized pre.
Hypothesis M_safe : (M <= JS.MAX_SAFE_INTEGER)%N.
Hypothesis N_safe : (N <= JS.MAX_SAFE_INTEGER)%N.
Hypothesis P_safe : (P <= JS.MAX_SAFE_INTEGER)%N.

Let current : string := buildVersionString pre (Some (baseString M N P)).



Lemma determineVersionType_not_initial (commits : list CommitInfo.t) :
  determineVersionType commits <> initial.
Proof.
  unfold determineVersionType.
  destruct (hasBreaking commits); [discriminate|].
  destruct (hasFeature commits); discriminate.
Qed.

End WellFormedCut.

Section WellFormedRun.


End WellFormedRun.



(** ** The last versioned commit *)

Section LastVersioned.

Local Open Scope Z_scope.

Lemma newerFirst_days (a b : Version.t) (da db : Z) :
  Version.date a = Day da -> Version.date b = Day db ->
  (0 <? newerFirst a b) = (da <? db).
Proof.
  intros Ea Eb. unfold newerFirst, getTime. rewrite Ea, Eb.
  destruct (Z.ltb_spec da db), (Z.ltb_spec 0 (db * 86400000 - da * 86400000));
    auto; lia.
Qed.

Lemma insertVersion_head (x : Version.t) (l : list Version.t) :
  hd_error (insertVersion x l)
  = match l with
    | [] => Some x
    | y :: _ => if 0 <? newerFirst x y then Some y else Some x
    end.
Proof.
  destruct l as [|y r]; [reflexivity|]. simpl.
  now destruct (0 <? newerFirst x y).
Qed.

Lemma dated_all (t : Z) (l : list Version.t) :
  Forall (datedBy t) l ->
  forallb (fun v => dateSet (Version.date v)) l = true.
Proof.
  intros F. apply forallb_forall. intros v Hv.
  rewrite Forall_forall in F. destruct (F v Hv) as (d & -> & _).
  reflexivity.
Qed.

(** The head of the sorted versions is the first of the latest ones. *)
Lemma sorted_head (t : Z) (l : list Version.t) :
  Forall (datedBy t) l -> l <> [] ->
  exists v,
    hd_error (fold_right insertVersion [] l) = Some v /\ firstLatest l v.
Proof.
  induction l as [|x l IH]; [congruence|].
  intros F _. apply Forall_cons_iff in F as [(dx & Ex & Lx) F].
  cbn [fold_right]. rewrite insertVersion_head.
  destruct l as [|y l'].
  - exists x. split; [reflexivity|].
    exists [], [], dx. repeat split; auto.
  - destruct (IH F ltac:(discriminate))
      as (v & Hv & b & a & d & El & Ev & Hb & Ha).
    destruct (fold_right insertVersion [] (y :: l')) as [|h s] eqn:S;
      [discriminate Hv|].
    injection Hv as ->.
    rewrite (newerFirst_days x v dx d Ex Ev).
    destruct (Z.ltb_spec dx d) as [Lt|Ge].
    + exists v. split; [reflexivity|].
      exists (x :: b)%list, a, d. rewrite El. repeat split; auto.
      constructor; [now exists dx|assumption].
    + exists x. split; [reflexivity|].
      exists [], (y :: l')%list, dx. repeat split; auto.
      rewrite El. apply Forall_app. split.
      * eapply Forall_impl; [|exact Hb].
        intros u (e & Eu & Le). exists e. split; [assumption|lia].
      * constructor; [exists d; split; [assumption|lia]|].
        eapply Forall_impl; [|exact Ha].
        intros u (e & Eu & Le). exists e. split; [assumption|lia].
Qed.

Lemma getLastVersionedCommit_dated (t : Z) (data : ChangelogData.t) :
  Forall (datedBy t) (ChangelogData.versions data) ->
  ChangelogData.versions data <> [] ->
  exists v,
    getLastVersionedCommit data = Some (Some (Version.commit_hash v))
    /\ firstLatest (ChangelogData.versions data) v.
Proof.
  intros F Hne. unfold getLastVersionedCommit, sortVersions.
  rewrite (dated_all t _ F). cbn [orb option_map].
  destruct (sorted_head t _ F Hne) as (v & Hv & Hf).
  exists v. split; [|assumption].
  destruct (fold_right insertVersion [] (ChangelogData.versions data));
    [discriminate Hv|].
  now injection Hv as ->.
Qed.

End LastVersioned.

(** X8: on a history whose versions are all dated,
    [getLastVersionedCommit] gives the commit of the version with the
    latest date, the first in the list when several share that date; on
    an empty history it gives [undefined]. *)
Theorem last_versioned_commit_is_of_latest_version
    (t : Z) (data : ChangelogData.t) :
  Forall (datedBy t) (ChangelogData.versions data) ->
  (ChangelogData.versions data = [] ->
   getLastVersionedCommit data = Some None)
  /\ (ChangelogData.versions data <> [] ->
      exists v,
        getLastVersionedCommit data = Some (Some (Version.commit_hash v))
        /\ firstLatest (ChangelogData.versions data) v).
Proof.
  intros F. split.
  - intros E. unfold getLastVersionedCommit, sortVersions.
    now rewrite E.
  - now apply getLastVersionedCommit_dated with t.
Qed.

Lemma last_versioned_commit_is_of_latest_version_witness :
  let recorded := fun version day commit =>
    Version.make version (Day day) patch "Mejoras y optimizaciones" [] "" []
      commit None in
  let data :=
    ChangelogData.make "0.3.1"
      [recorded "0.3.1" 19790%Z "77aa01c";
       recorded "0.3.0" 19803%Z "d84e7b6";
       recorded "0.2.9" 19803%Z "a3f9c21"] in
  exists v,
    getLastVersionedCommit data = Some (Some (Version.commit_hash v))
    /\ Version.commit_hash v = "d84e7b6".
Proof.
  intros recorded data.
  destruct (proj2 (last_versioned_commit_is_of_latest_version 19803 data
                     ltac:(repeat constructor; eexists;
                           (split; [reflexivity|lia])))
              ltac:(discriminate)) as (v & Hv & _).
  exists v. split; [exact Hv|].
  vm_compute in Hv. injection Hv as Hv. symmetry. exact Hv.
Defined.

(** X9: after a cut made on day [t] over a history whose versions are
    all dated and none later than [t], [getLastVersionedCommit] of the
    history written is the hash of the newest commit of the batch, so
    that the next run reads the commits after it. *)
Theorem next_run_resumes_after_the_cut
    (newCommits : list CommitInfo.t) (t : Z) (options : Options)
    (w w' : World) (v : Version.t) :
  analyzeAndVersion newCommits (Day t) options w = (Ok (Versioned v), w') ->
  Forall (datedBy t) (ChangelogData.versions (storedHistory w)) ->
  exists older newest,
    newCommits = (older ++ [newest])%list
    /\ getLastVersionedCommit (storedHistory w')
       = Some (Some (CommitInfo.hash newest)).
Proof.
  intros H F.
  apply cut_steps in H
    as (w1 & older & newest & _ & E & _ & Hd & Hh & _ & ->).
  exists older, newest. split; [assumption|].
  cbn [storedHistory changelog_json].
  set (data := ChangelogData.make (Version.version v)
                 (v :: ChangelogData.versions (storedHistory w))).
  assert (F' : Forall (datedBy t) (ChangelogData.versions data)).
  { constructor; [|assumption]. exists t. split; [assumption|lia]. }
  destruct (getLastVersionedCommit_dated t data F' ltac:(discriminate))
    as (u & Hu & b & a & d & El & Eu & Hb & _).
  rewrite Hu. do 2 f_equal. rewrite <- Hh. f_equal.
  destruct b as [|x b].
  - simpl in El. now injection El as ->.
  - simpl in El. injection El as <- El.
    apply Forall_inv in Hb as (e & Ee & Lt).
    rewrite Hd in Ee. injection Ee as <-.
    assert (In u (ChangelogData.versions (storedHistory w))).
    { rewrite El. apply in_or_app. right. now left. }
    rewrite Forall_forall in F. destruct (F u H) as (d' & Ed' & Le).
    rewrite Eu in Ed'. injection Ed' as <-. lia.
Qed.

Lemma next_run_resumes_after_the_cut_witness :
  let batch :=
    [CommitInfo.make "a3f9c21" (Day 19800) "fix(sync) - retry"
       "fix(sync) - retry" None None;
     CommitInfo.make "d84e7b6" (Day 19802) "feat(ui) - dark mode"
       "feat(ui) - dark mode" None None] in
  let w := mkWorld None [] in
  exists older newest,
    batch = (older ++ [newest])%list
    /\ getLastVersionedCommit
         (storedHistory
            (snd (analyzeAndVersion batch (Day 19805)
                    (mkOptions None None) w)))
       = Some (Some (CommitInfo.hash newest)).
Proof.
  intros batch w.
  refine (next_run_resumes_after_the_cut batch 19805 (mkOptions None None)
            w _ _ _ _).
  - lazy. reflexivity.
  - constructor.
Defined.

(** ** The shape of the groups *)

Section GroupShape.

Let tidy (st : GroupState) : Prop :=
  Forall wellGrouped (groups st)
  /\ List.length (currentGroup st) <= 10
  /\ ((currentGroup st = [] /\ currentDate st = NoDate)
      \/ exists first rest,
           currentGroup st = first :: rest
           /\ currentDate st = CommitInfo.date first).

Lemma pushGroup_wellGrouped (st : GroupState) :
  tidy st -> Forall wellGrouped (pushGroup st).
Proof.
  intros (G & L & C). unfold pushGroup.
  destruct C as [[C _]|(first & rest & C & D)].
  - now rewrite C.
  - rewrite C at 1. cbn [List.length Nat.ltb Nat.leb].
    apply Forall_app. split; [assumption|].
    constructor; [|constructor].
    exists first, rest. unfold closeGroup. cbn. auto.
Qed.

Lemma opened_tidy (st : GroupState) (c : CommitInfo.t) :
  tidy st ->
  tidy (mkGroupState (pushGroup st) [c] (CommitInfo.date c)).
Proof.
  intros T. repeat split; cbn.
  - now apply pushGroup_wellGrouped.
  - lia.
  - right. now exists c, [].
Qed.

Lemma groupStep_tidy (st : GroupState) (c : CommitInfo.t) :
  tidy st -> tidy (groupStep st c).
Proof.
  intros T. unfold groupStep.
  destruct (startsNewGroup st c) eqn:S; [now apply opened_tidy|].
  unfold startsNewGroup in S.
  apply orb_false_iff in S as [S Full].
  apply orb_false_iff in S as [Set_ _].
  apply Nat.leb_gt in Full.
  destruct T as (G & L & C). repeat split; cbn.
  - assumption.
  - rewrite length_app. simpl. lia.
  - right. destruct C as [[_ D]|(first & rest & C & D)].
    + rewrite D in Set_. discriminate Set_.
    + exists first, (rest ++ [c])%list. rewrite C. auto.
Qed.

Lemma fold_groupStep_tidy (commits : list CommitInfo.t) (st : GroupState) :
  tidy st -> tidy (fold_left groupStep commits st).
Proof.
  revert st. induction commits as [|c l IH]; intros st T; [exact T|].
  simpl. apply IH. now apply groupStep_tidy.
Qed.

Lemma groups_wellGrouped (commits : list CommitInfo.t) :
  Forall wellGrouped (groupCommitsIntoVersions commits).
Proof.
  unfold groupCommitsIntoVersions.
  apply Forall_rev. apply pushGroup_wellGrouped.
  apply fold_groupStep_tidy.
  split; [constructor|].
  split; [cbn; lia|left; split; reflexivity].
Qed.

End GroupShape.

(** X10: [groupCommitsIntoVersions] cuts the history into consecutive
    runs: read from the last group to the first, the commits of the
    groups are the history, in order, each commit once; and every group
    has between one and ten commits, the date of its first commit, and
    the type and title computed from its own commits. *)
Theorem groups_are_runs_of_the_history (commits : list CommitInfo.t) :
  flat_map Group.commits (rev (groupCommitsIntoVersions commits)) = commits
  /\ Forall wellGrouped (groupCommitsIntoVersions commits).
Proof.
  split; [apply groups_partition_history|apply groups_wellGrouped].
Qed.

Section GroupSpan.

Local Open Scope Z_scope.

Let close (st : GroupState) : Prop :=
  Forall (fun g => withinWeek (Group.commits g)) (groups st)
  /\ withinWeek (currentGroup st)
  /\ ((currentGroup st = [] /\ currentDate st = NoDate)
      \/ exists first rest,
           currentGroup st = first :: rest
           /\ currentDate st = CommitInfo.date first).

Lemma withinWeek_single (c : CommitInfo.t) : dated c -> withinWeek [c].
Proof.
  intros [d Ed] first rest x E [<-|[]]. injection E as <- <-.
  exists d, d. repeat split; auto. lia.
Qed.

Lemma pushGroup_close (st : GroupState) :
  close st -> Forall (fun g => withinWeek (Group.commits g)) (pushGroup st).
Proof.
  intros (G & W & _). unfold pushGroup.
  destruct (0 <? List.length (currentGroup st))%nat; [|assumption].
  apply Forall_app. split; [assumption|].
  constructor; [exact W|constructor].
Qed.

Lemma groupStep_close (st : GroupState) (c : CommitInfo.t) :
  dated c -> close st -> close (groupStep st c).
Proof.
  intros Dc K. unfold groupStep.
  destruct (startsNewGroup st c) eqn:S.
  - repeat split; cbn.
    + now apply pushGroup_close.
    + now apply withinWeek_single.
    + right. now exists c, [].
  - unfold startsNewGroup in S.
    apply orb_false_iff in S as [S _].
    apply orb_false_iff in S as [Set_ Gap].
    destruct K as (G & W & C).
    destruct C as [[_ D]|(first & rest & C & D)];
      [rewrite D in Set_; discriminate Set_|].
    repeat split; cbn.
    + assumption.
    + rewrite C. intros f r x E Hx. injection E as <- <-.
      destruct Hx as [<-|Hx].
      * apply (W first rest first C). rewrite C. now left.
      * apply in_app_or in Hx as [Hx|[<-|[]]].
        -- apply (W first rest x C). rewrite C. now right.
        -- destruct Dc as [d Ed].
           destruct (W first rest first C ltac:(rewrite C; now left))
             as (a & _ & Ea & _ & _).
           exists a, d. repeat split; auto.
           rewrite D, Ea, Ed, daysDifference_days in Gap.
           cbn [greaterThan] in Gap. now apply Z.ltb_ge in Gap.
    + right. exists first, (rest ++ [c])%list. rewrite C. auto.
Qed.

Lemma fold_groupStep_close (commits : list CommitInfo.t) (st : GroupState) :
  Forall dated commits -> close st ->
  close (fold_left groupStep commits st).
Proof.
  revert st. induction commits as [|c l IH]; intros st F K; [exact K|].
  apply Forall_cons_iff in F as [Dc F].
  simpl. apply IH; [assumption|]. now apply groupStep_close.
Qed.

Lemma groups_withinWeek (commits : list CommitInfo.t) :
  Forall dated commits ->
  Forall (fun g => withinWeek (Group.commits g))
         (groupCommitsIntoVersions commits).
Proof.
  intros F. unfold groupCommitsIntoVersions.
  apply Forall_rev. apply pushGroup_close.
  apply fold_groupStep_close; [assumption|].
  split; [constructor|].
  split; [intros f r x E; discriminate E|left; split; reflexivity].
Qed.

End GroupSpan.

(** X11: in a history whose commits are all dated, every commit of a
    group is within seven days of the first commit of its group. *)
Theorem group_commits_are_within_a_week
    (commits : list CommitInfo.t) (g : Group.t) :
  Forall dated commits ->
  In g (groupCommitsIntoVersions commits) ->
  withinWeek (Group.commits g).
Proof.
  intros F H.
  pose proof (groups_withinWeek commits F) as W.
  rewrite Forall_forall in W. now apply W.
Qed.

Lemma group_commits_are_within_a_week_witness :
  Forall (fun g => withinWeek (Group.commits g))
         (groupCommitsIntoVersions (historyOn [19800; 19803; 19807; 19820]%Z)).
Proof.
  apply Forall_forall. intros g H.
  refine (group_commits_are_within_a_week
            (historyOn [19800; 19803; 19807; 19820]%Z) g _ H).
  repeat constructor; eexists; reflexivity.
Defined.

(** ** Synthetic version numbers *)

(** X12: the numbers that [generateVersionNumber] gives to the groups of
    a history are base triples that decrease strictly along the list of
    groups: a group always gets a greater number than every group after
    it, so the most recent group has the greatest one and no two groups
    share a number. *)
Theorem generated_numbers_decrease (i j total : nat) :
  i < j -> j < total ->
  exists a b : N * N * N,
    generateVersionNumber i total
    = (let '(M, N, P) := a in baseString M N P)
    /\ generateVersionNumber j total
       = (let '(M, N, P) := b in baseString M N P)
    /\ tripleLt b a.
Proof.
  intros Hij Hj.
  assert (T : (total =? 1)%nat = false) by (apply Nat.eqb_neq; lia).
  unfold generateVersionNumber. rewrite T.
  destruct i as [|[|[|i]]]; destruct j as [|[|[|j]]]; try lia;
    cbn [Nat.eqb Nat.ltb Nat.leb].
  - exists (1, 0, 0)%N, (0, 8, 0)%N. repeat split. cbn [tripleLt]. lia.
  - exists (1, 0, 0)%N, (0, 7, 0)%N. repeat split. cbn [tripleLt]. lia.
  - exists (1, 0, 0)%N,
      (0, 1, N.of_nat (Nat.max 1 (total - S (S (S j)))))%N.
    repeat split. cbn [tripleLt]. lia.
  - exists (0, 8, 0)%N, (0, 7, 0)%N. repeat split. cbn [tripleLt]. lia.
  - exists (0, 8, 0)%N,
      (0, 1, N.of_nat (Nat.max 1 (total - S (S (S j)))))%N.
    repeat split. cbn [tripleLt]. lia.
  - exists (0, 7, 0)%N,
      (0, 1, N.of_nat (Nat.max 1 (total - S (S (S j)))))%N.
    repeat split. cbn [tripleLt]. lia.
  - exists (0, 1, N.of_nat (Nat.max 1 (total - S (S (S i)))))%N,
      (0, 1, N.of_nat (Nat.max 1 (total - S (S (S j)))))%N.
    repeat split. cbn [tripleLt]. lia.
Qed.

Lemma generated_numbers_decrease_witness :
  exists a b : N * N * N,
    generateVersionNumber 2 6 = (let '(M, N, P) := a in baseString M N P)
    /\ generateVersionNumber 4 6 = (let '(M, N, P) := b in baseString M N P)
    /\ tripleLt b a.
Proof.
  apply generated_numbers_decrease; lia.
Defined.

(** ** The type of a batch and of its parts *)

(** X13: the type detected for a batch is the highest of the types
    detected for its parts, with major above minor above patch; so it
    does not depend on the order of the commits, and more commits never
    lower it. *)
Theorem batch_type_is_the_highest (xs ys : list CommitInfo.t) :
  bumpRank (determineVersionType (xs ++ ys))
  = Nat.max (bumpRank (determineVersionType xs))
            (bumpRank (determineVersionType ys)).
Proof.
  unfold determineVersionType, hasBreaking, hasFeature.
  rewrite !existsb_app.
  repeat match goal with
         | |- context [existsb ?f ?l] => destruct (existsb f l)
         end; reflexivity.
Qed.

(** ** Initialisation from the history *)

Section History.



End History.



(** ** The options that the entry point forwards *)

Section EntryPoint.

Lemma versionTypeOf_not_initial (s : string) :
  versionTypeOf s <> Some initial.
Proof.
  unfold versionTypeOf.
  destruct (s =? "major"); [discriminate|].
  destruct (s =? "minor"); [discriminate|].
  destruct (s =? "patch"); discriminate.
Qed.

Lemma versionTypeOf_names (s : string) (t : VersionType) :
  versionTypeOf s = Some t ->
  In s ["major"; "minor"; "patch"].
Proof.
  unfold versionTypeOf.
  destruct (String.eqb_spec s "major"); [subst; simpl; auto|].
  destruct (String.eqb_spec s "minor"); [subst; simpl; auto|].
  destruct (String.eqb_spec s "patch"); [subst; simpl; auto|].
  discriminate.
Qed.

Lemma has_flag (flag : string) (args : list string) :
  existsb (String.eqb flag) args = true <-> In flag args.
Proof.
  rewrite existsb_exists. split.
  - intros (x & Hx & E). apply String.eqb_eq in E. now subst.
  - intros H. exists flag. split; [assumption|apply String.eqb_refl].
Qed.

End EntryPoint.

(** X15: when the entry point calls [analyzeAndVersion], the command line
    has none of the flags for help, initialisation and synchronisation;
    the type it forwards is absent or one of major, minor and patch,
    never [initial]; and the prefix it forwards is absent or not empty.
    A value after [--type] that is not one of the three names ends the
    script with code 1, whatever else is on the command line. *)
Theorem entry_point_forwards_checked_options (args : list string) :
  (forall options,
     cli args = RunAnalyze options ->
     type options <> Some initial
     /\ prefix options <> Some ""
     /\ ~ In "--help" args /\ ~ In "-h" args
     /\ ~ In "--init" args /\ ~ In "-i" args
     /\ ~ In "--sync" args /\ ~ In "-s" args)
  /\ (forall typeIndex value,
        indexOf String.eqb args "--type" = Some typeIndex ->
        argAfter args typeIndex = Some value ->
        ~ In value ["major"; "minor"; "patch"] ->
        cli args = Exit 1).
Proof.
  assert (NF : forall f, existsb (String.eqb f) args = false -> ~ In f args).
  { intros f E H. apply has_flag in H. congruence. }
  split.
  - intros options H.
    split; [|split; [now apply cli_drops_empty_prefix with args|]].
    + revert H. unfold cli. cbv zeta.
      destruct (match indexOf String.eqb args "--type" with
                | Some i => argAfter args i
                | None => None
                end) as [ty|]; cbn [option_map];
        [destruct (versionTypeOf ty) as [t|] eqn:E; [|discriminate]|];
        repeat match goal with
               | |- context [if ?b then _ else _] =>
                   destruct b; try discriminate
               end;
        intros H; injection H as <-; cbn [type]; try discriminate;
        rewrite <- E; apply versionTypeOf_not_initial.
    + revert H. unfold cli. cbv zeta.
      destruct (existsb (String.eqb "--help") args) eqn:F1;
        destruct (existsb (String.eqb "-h") args) eqn:F2;
        destruct (existsb (String.eqb "--init") args) eqn:F3;
        destruct (existsb (String.eqb "-i") args) eqn:F4;
        destruct (existsb (String.eqb "--sync") args) eqn:F5;
        destruct (existsb (String.eqb "-s") args) eqn:F6;
        cbn [orb];
        try (destruct (match indexOf String.eqb args "--type" with
                       | Some i => argAfter args i
                       | None => None
                       end) as [ty|]; cbn [option_map];
             [destruct (versionTypeOf ty)|]; discriminate).
      intros _. repeat split; now apply NF.
  - intros typeIndex value Hi Ha Hv. unfold cli. rewrite Hi, Ha.
    cbn [option_map].
    destruct (versionTypeOf value) as [t|] eqn:E; [|reflexivity].
    apply versionTypeOf_names in E. contradiction.
Qed.

Lemma entry_point_forwards_checked_options_witness :
  cli ["--help"; "--type"; "huge"] = Exit 1.
Proof.
  refine (proj2 (entry_point_forwards_checked_options
                   ["--help"; "--type"; "huge"]) 1 "huge" _ _ _).
  - reflexivity.
  - reflexivity.
  - simpl. intuition discriminate.
Defined.

(** ** Versions for strict consumers *)

(** X16: of a well-formed version, with or without a recognized prefix,
    the version written for Tauri and Cargo is the bare base, itself a
    triple of integers; versions that differ only in their prefix are
    written alike. *)
Theorem strict_version_is_the_base (pre : option string) (M N P : N) :
  recognized pre ->
  strictVersion (buildVersionString pre (Some (baseString M N P)))
  = baseString M N P
  /\ isTriple (baseString M N P) = true.
Proof.
  intros R. split.
  - unfold strictVersion. now rewrite (parse_built M N P pre R).
  - unfold isTriple. rewrite baseString_split.
    rewrite !decimal_digits.
    pose proof (decimal_nonempty M) as HM.
    pose proof (decimal_nonempty N) as HN.
    pose proof (decimal_nonempty P) as HP.
    apply truthy_nonempty in HM, HN, HP.
    now rewrite HM, HN, HP.
Qed.

Lemma strict_version_is_the_base_witness :
  strictVersion "pre-alpha-0.12.3" = "0.12.3".
Proof.
  refine (proj1 (strict_version_is_the_base (Some "pre-alpha") 0 12 3 _)).
  simpl. auto.
Defined.

(** ** Titles of commits without changelog *)

Section ConventionalTitles.





End ConventionalTitles.



(** ** The title of a version *)

(** X18: the title that [generateVersionTitle] gives to a version with a
    prefix is the title of the same changes and type without prefix,
    preceded by "Versión", the capitalised prefix and a hyphen; and
    unless the type is major, a version with a feature entry is titled
    after its first feature entry. *)
Theorem version_title_composition
    (changes : list ChangelogEntry.t) (type : VersionType) (p : string) :
  p <> "" ->
  generateVersionTitle changes type (Some p)
  = "Versión " ++ capitalize p ++ " - "
      ++ generateVersionTitle changes type None
  /\ (type <> major ->
      forall f others,
        filter (isType feature) changes = f :: others ->
        contains (generateVersionTitle changes type None)
                 (ChangelogEntry.title f)).
Proof.
  intros Hp. apply truthy_nonempty in Hp. split.
  - unfold generateVersionTitle. rewrite Hp.
    destruct type;
      destruct (filter (isType feature) changes) as [|f [|f' fs]];
      destruct (filter (isType fix_) changes) as [|x [|x' xs]];
      cbn [append]; rewrite ?append_assoc; reflexivity.
  - intros Ht f others E. unfold generateVersionTitle. rewrite E.
    assert (T : match type with major => False | _ => True end)
      by (destruct type; auto).
    destruct others as [|f' fs].
    + exists "Nueva funcionalidad: ", "".
      destruct type; [| contradiction | |];
        cbn [append]; now rewrite append_empty.
    + exists "Nuevas funcionalidades incluyendo ",
        (" y " ++ JS.decimal (N.of_nat (List.length (f' :: fs))) ++ " más").
      destruct type; [| contradiction | |]; reflexivity.
Qed.

Lemma version_title_composition_witness :
  generateVersionTitle
    [ChangelogEntry.make feature "Modo oscuro" "Modo oscuro. Incluye tema."]
    minor (Some "beta")
  = "Versión Beta - Nueva funcionalidad: Modo oscuro".
Proof.
  refine (proj1 (version_title_composition _ minor "beta" _)).
  discriminate.
Defined.
